(** * Brute-force graph colouring: a shallow embedding of
      [brute_force_colourings.py] and the properties of its two searches.

    Python integers that occur here are lengths, loop counters, colour
    numbers and candidate indices; they are never negative, so they are
    modelled as [nat].  Dictionaries are [gmap]s, exceptions are an explicit
    error result, and the two [while True] loops take a bound on the number
    of rounds they may run. *)

From stdpp Require Import gmap list fin_maps fin_sets sorting.

(** ** Exceptions and results *)

Inductive exception := KeyError | IndexError | ZeroDivisionError.

Inductive result (A : Type) :=
  | Ok (a : A)
  | Raise (e : exception).
Arguments Ok {A} a.
Arguments Raise {A} e.

#[global] Instance result_ret : MRet result := λ A a, Ok a.
#[global] Instance result_bind : MBind result := λ A B f r,
  match r with
  | Ok a => f a
  | Raise e => Raise e
  end.

(** What a call of one of the searches can end in: a returned dictionary,
    a returned [None] (after the printed message), or an exception. *)
Inductive outcome (V : Type) `{Countable V} :=
  | Returned (colouring : gmap V nat)
  | ReturnedNone
  | Raised (e : exception).
Arguments Returned {V _ _} colouring.
Arguments ReturnedNone {V _ _}.
Arguments Raised {V _ _} e.

(** ** Library functions used by the source *)

(** [itertools.product(pool, repeat=r)]: all sequences of length [r] over
    [pool], in lexicographic order, the last position varying fastest; one
    empty sequence when [r = 0]. *)
Fixpoint product (pool : list nat) (repeat : nat) : list (list nat) :=
  match repeat with
  | 0 => [[]]
  | S r => p ← pool; (p ::.) <$> product pool r
  end.

(** ** The graph, as the source reads it *)

(** [list(G)] and [G.edges()]; [len(G)] is the number of vertices. *)
Record Graph (V : Type) := mkGraph {
  vertices : list V;
  edges : list (V * V)
}.
Arguments mkGraph {V} vertices edges.
Arguments vertices {V} g.
Arguments edges {V} g.

Section Colourings.
Context {V : Type} `{Countable V}.

Implicit Types (G : Graph V) (colouring : gmap V nat).
Implicit Types (colouring_list options : list nat).

(** *** Shared functions *)

Fixpoint validate_edges (es : list (V * V)) colouring : result bool :=
  match es with
  | [] => Ok true
  | edge :: es' =>
      match colouring !! edge.1 with
      | None => Raise KeyError
      | Some c0 =>
          match colouring !! edge.2 with
          | None => Raise KeyError
          | Some c1 =>
              if decide (c0 = c1) then Ok false
              else validate_edges es' colouring
          end
      end
  end.

Definition validate_colouring G colouring : result bool :=
  validate_edges (edges G) colouring.

(** The dictionary comprehension
    [{vertices[counter]: colouring_list[counter] for counter in ...}]:
    entries are inserted in the order of the counters, a later entry for the
    same key replaces the earlier one. *)
Fixpoint dict_comprehension (counters : list nat) colouring_list
    (vs : list V) (acc : gmap V nat) : result (gmap V nat) :=
  match counters with
  | [] => Ok acc
  | counter :: rest =>
      match vs !! counter with
      | None => Raise IndexError
      | Some v =>
          match colouring_list !! counter with
          | None => Raise IndexError
          | Some c =>
              dict_comprehension rest colouring_list vs (<[v:=c]> acc)
          end
      end
  end.

Definition colouring_list_to_dict colouring_list (vs : list V)
    : result (gmap V nat) :=
  dict_comprehension (seq 0 (length colouring_list)) colouring_list vs ∅.

(** *** Product brute force *)

(** The [for colouring_option in colourings] loop.  The first component is
    the list of the sequences that were converted and handed to
    [validate_colouring], in order; the second is [None] when the loop ran
    to its end without leaving the function. *)
Fixpoint product_for G (vs : list V) (colours : nat)
    (colourings : list (list nat)) : list (list nat) * option (outcome V) :=
  match colourings with
  | [] => ([], None)
  | colouring_option :: rest =>
      if decide (colours - 1 ∈ colouring_option) then
        match colouring_list_to_dict colouring_option vs with
        | Raise e => ([colouring_option], Some (Raised e))
        | Ok colouring =>
            match validate_colouring G colouring with
            | Raise e => ([colouring_option], Some (Raised e))
            | Ok true => ([colouring_option], Some (Returned colouring))
            | Ok false =>
                let r := product_for G vs colours rest in
                (colouring_option :: r.1, r.2)
            end
        end
      else product_for G vs colours rest
  end.

(** The [while True] loop, run for at most [fuel] rounds.  The first
    component pairs every validated sequence with the value [colours] had
    then. *)
Fixpoint product_while (fuel : nat) G (vs : list V) (size colours : nat)
    : list (nat * list nat) * option (outcome V) :=
  match fuel with
  | 0 => ([], None)
  | S fuel' =>
      let colourings := product (seq 0 colours) size in
      let r := product_for G vs colours colourings in
      let log := (colours,.) <$> r.1 in
      match r.2 with
      | Some o => (log, Some o)
      | None =>
          let r' := product_while fuel' G vs size (colours + 1) in
          (log ++ r'.1, r'.2)
      end
  end.

Definition product_run (fuel : nat) G
    : list (nat * list nat) * option (outcome V) :=
  let size := length (vertices G) in
  let vs := vertices G in
  product_while fuel G vs size 1.

(** [None] means the loop is still running after [fuel] rounds. *)
Definition product_brute_force_colouring (fuel : nat) G : option (outcome V) :=
  (product_run fuel G).2.

Definition product_validated (fuel : nat) G : list (nat * list nat) :=
  (product_run fuel G).1.

(** *** Custom brute force *)

(** [size - len(options_0)] may be negative in Python, and a list times a
    negative number is empty; truncated subtraction gives the same list. *)
Definition create_options (colours size : nat) : list nat :=
  let options_0 := seq 1 colours in
  let options_1 := replicate (size - length options_0) colours in
  let full_options := options_0 ++ options_1 in
  full_options.

(** The body of [for counter in range(len(options)-1, -1, -1)]. *)
Fixpoint colouring_generator_for (counters : list nat) options
    colouring_list (colouring_index : nat) : result (list nat) :=
  match counters with
  | [] => Ok colouring_list
  | counter :: rest =>
      match options !! counter with
      | None => Raise IndexError
      | Some base =>
          if decide (base = 0) then Raise ZeroDivisionError
          else
            colouring_generator_for rest options
              (colouring_list ++ [colouring_index mod base])
              (colouring_index / base)
      end
  end.

Definition colouring_generator (colouring_index : nat) options
    : result (list nat) :=
  colouring_list ←
    colouring_generator_for (reverse (seq 0 (length options))) options []
      colouring_index;
  mret (reverse colouring_list).

Definition check_all_colours_in_colouring_list (colours : nat)
    colouring_list : bool :=
  bool_decide (size (list_to_set colouring_list : gset nat) = colours).

(** [number_colourings = 1; for option in options: number_colourings *= option] *)
Definition number_colourings options : nat :=
  foldl (λ acc option, acc * option) 1 options.

(** The [for counter in range(number_colourings)] loop; [None] when it ran
    to its end. *)
Fixpoint custom_for G (vs : list V) (colours : nat) options
    (counters : list nat) : option (outcome V) :=
  match counters with
  | [] => None
  | counter :: rest =>
      match colouring_generator counter options with
      | Raise e => Some (Raised e)
      | Ok colouring_list =>
          if check_all_colours_in_colouring_list colours colouring_list then
            match colouring_list_to_dict colouring_list vs with
            | Raise e => Some (Raised e)
            | Ok colouring =>
                match validate_colouring G colouring with
                | Raise e => Some (Raised e)
                | Ok true => Some (Returned colouring)
                | Ok false => custom_for G vs colours options rest
                end
            end
          else custom_for G vs colours options rest
      end
  end.

(** The [while True] loop, for at most [fuel] rounds.  [create_options]
    raises nothing, so the [except] branch is never taken. *)
Fixpoint custom_while (fuel : nat) G (vs : list V) (size colours : nat)
    : option (outcome V) :=
  match fuel with
  | 0 => None
  | S fuel' =>
      if decide (colours ≤ size) then
        let options := create_options colours size in
        match custom_for G vs colours options
                (seq 0 (number_colourings options)) with
        | Some o => Some o
        | None => custom_while fuel' G vs size (colours + 1)
        end
      else Some ReturnedNone
  end.

Definition custom_brute_force_colouring (fuel : nat) G : option (outcome V) :=
  let vs := vertices G in
  let size := length (vertices G) in
  custom_while fuel G vs size 1.

End Colourings.

(** ** Notions the properties are stated with *)

(** The spec's wording of the digit decomposition: go through the bounds
    from the last position to the first, take [index mod bound], pass on
    [index div bound], and put the collected digits back in position
    order. *)
Fixpoint digits_from_last (bounds_rev : list nat) (index : nat) : list nat :=
  match bounds_rev with
  | [] => []
  | bound :: rest => index mod bound :: digits_from_last rest (index / bound)
  end.

Definition mixed_radix_digits (index : nat) (options : list nat) : list nat :=
  reverse (digits_from_last (reverse options) index).

(** The number a digit sequence stands for: the digit at a position weighs
    the product of the bounds of all later positions. *)
Fixpoint mixed_radix_value (options ds : list nat) : nat :=
  match options, ds with
  | _ :: bs, d :: ds' => d * number_colourings bs + mixed_radix_value bs ds'
  | _, _ => 0
  end.

Section Notions.
Context {V : Type} `{Countable V}.
Implicit Types (G : Graph V) (C : gmap V nat).

(** What the source takes for granted of a graph: [list(G)] lists every
    vertex once, and every edge joins two vertices of [G]. *)
Definition well_formed G : Prop :=
  NoDup (vertices G) ∧
  Forall (λ e, e.1 ∈ vertices G ∧ e.2 ∈ vertices G) (edges G).

(** No edge from a vertex to itself. *)
Definition loop_free G : Prop := Forall (λ e, e.1 ≠ e.2) (edges G).

(** The two ends of every edge are coloured, and differently. *)
Definition proper G C : Prop :=
  Forall (λ e, ∃ c0 c1, C !! e.1 = Some c0 ∧ C !! e.2 = Some c1 ∧ c0 ≠ c1)
    (edges G).

(** [C] colours exactly the vertices of [G], properly, with colours
    below [k]. *)
Definition k_colouring G (k : nat) C : Prop :=
  dom C = list_to_set (vertices G) ∧
  map_Forall (λ _ c, c < k) C ∧
  proper G C.

Definition colourable G (k : nat) : Prop := ∃ C, k_colouring G k C.

(** [k] is the least number of colours [G] can be coloured with. *)
Definition chromatic_number G (k : nat) : Prop :=
  colourable G k ∧ ∀ j, colourable G j → k ≤ j.

(** The number of distinct colours in a dictionary. *)
Definition colours_used C : nat := size (map_img C : gset nat).

(** The dictionary that pairs [vs] with [s] position by position, entered
    from the first position to the last. *)
Definition paired (vs : list V) (s : list nat) : gmap V nat :=
  list_to_map (reverse (zip vs s)).

(** One candidate, converted and validated: [None] when it is rejected and
    the enclosing loop goes on. *)
Definition try_candidate G (vs : list V) (s : list nat) : option (outcome V) :=
  match colouring_list_to_dict s vs with
  | Raise e => Some (Raised e)
  | Ok colouring =>
      match validate_colouring G colouring with
      | Raise e => Some (Raised e)
      | Ok true => Some (Returned colouring)
      | Ok false => None
      end
  end.

(** The first candidate of a list that ends the search. *)
Fixpoint first_hit G (vs : list V) (cands : list (list nat))
    : option (outcome V) :=
  match cands with
  | [] => None
  | s :: rest =>
      match try_candidate G vs s with
      | Some o => Some o
      | None => first_hit G vs rest
      end
  end.

(** Rounds [colours], [colours + 1], ... of a search, at most [fuel] of
    them, up to the first that ends it. *)
Fixpoint first_round (round : nat → option (outcome V)) (fuel colours : nat)
    : option (outcome V) :=
  match fuel with
  | 0 => None
  | S fuel' =>
      match round colours with
      | Some o => Some o
      | None => first_round round fuel' (colours + 1)
      end
  end.

(** One round of each search, for a given value of [colours]. *)
Definition product_round G (colours : nat) : option (outcome V) :=
  (product_for G (vertices G) colours
     (product (seq 0 colours) (length (vertices G)))).2.

Definition custom_round G (colours : nat) : option (outcome V) :=
  if decide (colours ≤ length (vertices G)) then
    let options := create_options colours (length (vertices G)) in
    custom_for G (vertices G) colours options
      (seq 0 (number_colourings options))
  else Some ReturnedNone.

End Notions.

(** Relabelling a colour sequence by order of first appearance. *)

(** The distinct colours of [s], each at its first appearance. *)
Fixpoint firsts (s : list nat) : list nat :=
  match s with
  | [] => []
  | c :: s' => c :: filter (λ x, x ≠ c) (firsts s')
  end.

(** The position of the first [x] in [l]. *)
Fixpoint pos (l : list nat) (x : nat) : nat :=
  match l with
  | [] => 0
  | y :: l' => if decide (x = y) then 0 else S (pos l' x)
  end.

Definition canon (s : list nat) : list nat := pos (firsts s) <$> s.

(** The order in which both searches run through the colour sequences of
    one length: by the first position where two sequences differ. *)
Fixpoint lex_lt (s t : list nat) : Prop :=
  match s, t with
  | x :: s', y :: t' => x < y ∨ (x = y ∧ lex_lt s' t')
  | _, _ => False
  end.

(** ** Graphs used in the examples *)

Definition triangle : Graph nat := mkGraph [0; 1; 2] [(0, 1); (1, 2); (0, 2)].
Definition path3 : Graph nat := mkGraph [7; 8; 9] [(7, 8)].
Definition cycle4 : Graph nat :=
  mkGraph [0; 1; 2; 3] [(0, 1); (1, 2); (2, 3); (3, 0)].
Definition null_graph : Graph nat := mkGraph [] [].
Definition loop_graph : Graph nat := mkGraph [0] [(0, 0)].

(** ** Arithmetic of the options vector and of the candidate count *)

Section Options.

#[local] Arguments number_colourings : simpl never.

Lemma foldl_mul_from (a : nat) (l : list nat) :
  foldl (λ acc option, acc * option) a l = a * number_colourings l.
Proof.
  unfold number_colourings. revert a.
  induction l as [|b l IH]; intros a; cbn [foldl]; [lia|].
  rewrite (IH (a * b)), (IH (1 * b)). lia.
Qed.

Lemma number_colourings_nil : number_colourings [] = 1.
Proof. reflexivity. Qed.

Lemma number_colourings_cons b l :
  number_colourings (b :: l) = b * number_colourings l.
Proof.
  unfold number_colourings at 1. cbn [foldl]. rewrite foldl_mul_from. lia.
Qed.

Lemma number_colourings_app l1 l2 :
  number_colourings (l1 ++ l2) = number_colourings l1 * number_colourings l2.
Proof.
  induction l1 as [|b l1 IH]; cbn [app].
  - rewrite number_colourings_nil. lia.
  - rewrite !number_colourings_cons, IH. lia.
Qed.

Lemma number_colourings_snoc l b :
  number_colourings (l ++ [b]) = number_colourings l * b.
Proof.
  rewrite number_colourings_app, number_colourings_cons, number_colourings_nil.
  lia.
Qed.

Lemma number_colourings_replicate n k :
  number_colourings (replicate n k) = k ^ n.
Proof.
  induction n as [|n IH]; [done|].
  cbn [replicate]. by rewrite number_colourings_cons, IH.
Qed.

Lemma number_colourings_le k l :
  Forall (λ b, b ≤ k) l → number_colourings l ≤ k ^ length l.
Proof.
  induction 1 as [|b l Hb _ IH].
  - by rewrite number_colourings_nil.
  - rewrite number_colourings_cons. cbn [length Nat.pow].
    by apply Nat.mul_le_mono.
Qed.

Lemma number_colourings_pos l :
  Forall (λ b, 0 < b) l → 0 < number_colourings l.
Proof.
  induction 1 as [|b l Hb _ IH].
  - rewrite number_colourings_nil. lia.
  - rewrite number_colourings_cons. nia.
Qed.

Lemma length_bind_const {A B} (f : A → list B) (l : list A) (n : nat) :
  (∀ a, length (f a) = n) → length (l ≫= f) = length l * n.
Proof.
  intros Hf. induction l as [|a l IH]; [done|].
  rewrite bind_cons, length_app, Hf, IH. simpl. lia.
Qed.

Lemma length_product pool r : length (product pool r) = length pool ^ r.
Proof.
  induction r as [|r IH]; [done|].
  cbn [product]. rewrite (length_bind_const _ _ (length pool ^ r)).
  - simpl. lia.
  - intros a. by rewrite length_fmap.
Qed.

(** *** [create_options] *)

Lemma length_create_options k n : k ≤ n → length (create_options k n) = n.
Proof.
  intros Hk. unfold create_options.
  rewrite length_app, length_replicate, length_seq. lia.
Qed.

Lemma lookup_create_options k n i :
  k ≤ n → i < n → create_options k n !! i = Some (min (i + 1) k).
Proof.
  intros Hk Hi. unfold create_options. rewrite length_seq.
  destruct (decide (i < k)) as [Hlt|Hge].
  - rewrite lookup_app_l by (rewrite length_seq; lia).
    rewrite lookup_seq_lt by done. f_equal. lia.
  - rewrite lookup_app_r by (rewrite length_seq; lia).
    rewrite length_seq, lookup_replicate_2 by lia. f_equal. lia.
Qed.

Lemma create_options_bounds k n :
  1 ≤ k → Forall (λ b, 1 ≤ b ∧ b ≤ k) (create_options k n).
Proof.
  intros Hk. unfold create_options. apply Forall_app. split.
  - apply Forall_seq. intros j Hj. lia.
  - apply Forall_forall. intros b Hb. apply elem_of_replicate in Hb.
    destruct Hb as [-> _]. lia.
Qed.

Lemma create_options_pos k n :
  1 ≤ k → Forall (λ b, 0 < b) (create_options k n).
Proof.
  intros Hk. eapply Forall_impl; [by apply create_options_bounds|].
  simpl. lia.
Qed.

(** *** [colouring_generator] *)

Lemma colouring_generator_for_app counters options extra acc index :
  Forall (λ c, c < length options) counters →
  colouring_generator_for counters (options ++ extra) acc index
  = colouring_generator_for counters options acc index.
Proof.
  intros Hc. revert acc index.
  induction Hc as [|c counters Hlt _ IH]; intros acc index; [done|].
  cbn [colouring_generator_for]. rewrite lookup_app_l by done.
  destruct (options !! c) as [base|]; [|done].
  destruct (decide (base = 0)); [done|]. apply IH.
Qed.

Lemma colouring_generator_for_digits options acc index :
  Forall (λ b, 0 < b) options →
  colouring_generator_for (reverse (seq 0 (length options))) options acc index
  = Ok (acc ++ digits_from_last (reverse options) index).
Proof.
  revert acc index.
  induction options as [|b options IH] using rev_ind; intros acc index Hpos.
  - cbn. by rewrite app_nil_r.
  - apply Forall_app in Hpos as [Hpos Hb]. rewrite Forall_singleton in Hb.
    rewrite length_app. cbn [length]. rewrite seq_app. cbn [seq plus].
    rewrite !reverse_snoc. cbn [colouring_generator_for].
    rewrite list_lookup_middle by done.
    destruct (decide (b = 0)); [lia|].
    rewrite colouring_generator_for_app.
    + rewrite IH by done. cbn [digits_from_last].
      by rewrite <-app_assoc.
    + apply Forall_forall. intros c Hc. rewrite elem_of_reverse in Hc.
      apply elem_of_seq in Hc. lia.
Qed.

Lemma colouring_generator_digits index options :
  Forall (λ b, 0 < b) options →
  colouring_generator index options = Ok (mixed_radix_digits index options).
Proof.
  intros Hpos. unfold colouring_generator.
  by rewrite colouring_generator_for_digits.
Qed.

Lemma mixed_radix_digits_nil index : mixed_radix_digits index [] = [].
Proof. reflexivity. Qed.

Lemma mixed_radix_digits_snoc index options b :
  mixed_radix_digits index (options ++ [b])
  = mixed_radix_digits (index / b) options ++ [index mod b].
Proof.
  unfold mixed_radix_digits. rewrite reverse_snoc.
  cbn [digits_from_last]. by rewrite reverse_cons.
Qed.

Lemma length_mixed_radix_digits index options :
  length (mixed_radix_digits index options) = length options.
Proof.
  revert index. induction options as [|b options IH] using rev_ind;
    intros index; [done|].
  rewrite mixed_radix_digits_snoc, !length_app, IH. done.
Qed.

Lemma mixed_radix_digits_lt index options :
  Forall (λ b, 0 < b) options →
  Forall2 (λ d b, d < b) (mixed_radix_digits index options) options.
Proof.
  revert index. induction options as [|b options IH] using rev_ind;
    intros index Hpos.
  - rewrite mixed_radix_digits_nil. constructor.
  - apply Forall_app in Hpos as [Hpos Hb]. rewrite Forall_singleton in Hb.
    rewrite mixed_radix_digits_snoc. apply Forall2_app; [by apply IH|].
    repeat constructor. by apply Nat.mod_upper_bound, Nat.neq_0_lt_0.
Qed.

Lemma mixed_radix_value_snoc options ds b d :
  length ds = length options →
  mixed_radix_value (options ++ [b]) (ds ++ [d])
  = mixed_radix_value options ds * b + d.
Proof.
  revert ds. induction options as [|x options IH]; intros [|e ds] Hlen;
    try done.
  - cbn. rewrite number_colourings_nil. lia.
  - cbn [app mixed_radix_value]. rewrite IH by (simpl in Hlen; lia).
    rewrite number_colourings_snoc. lia.
Qed.

Lemma mixed_radix_value_digits index options :
  Forall (λ b, 0 < b) options →
  index < number_colourings options →
  mixed_radix_value options (mixed_radix_digits index options) = index.
Proof.
  revert index. induction options as [|b options IH] using rev_ind;
    intros index Hpos Hlt.
  - rewrite number_colourings_nil in Hlt. cbn. lia.
  - apply Forall_app in Hpos as [Hpos Hb]. rewrite Forall_singleton in Hb.
    rewrite number_colourings_snoc in Hlt.
    rewrite mixed_radix_digits_snoc, mixed_radix_value_snoc
      by apply length_mixed_radix_digits.
    rewrite IH; [|done|].
    + pose proof (Nat.div_mod_eq index b). lia.
    + apply Nat.Div0.div_lt_upper_bound. lia.
Qed.

Lemma mixed_radix_value_lt options ds :
  Forall2 (λ d b, d < b) ds options →
  mixed_radix_value options ds < number_colourings options.
Proof.
  induction 1 as [|d b ds options Hd _ IH].
  - cbn. rewrite number_colourings_nil. lia.
  - cbn [mixed_radix_value]. rewrite number_colourings_cons. nia.
Qed.

Lemma mixed_radix_digits_value options ds :
  Forall2 (λ d b, d < b) ds options →
  mixed_radix_digits (mixed_radix_value options ds) options = ds.
Proof.
  revert ds. induction options as [|b options IH] using rev_ind;
    intros ds Hds.
  - by apply Forall2_nil_inv_r in Hds as ->.
  - apply Forall2_app_inv_r in Hds as (ds' & dl & Hds' & Hdl & ->).
    apply Forall2_cons_inv_r in Hdl as (d & dl' & Hd & Hnil & ->).
    apply Forall2_nil_inv_r in Hnil as ->.
    rewrite mixed_radix_value_snoc by (by eapply Forall2_length).
    rewrite mixed_radix_digits_snoc. f_equal.
    + rewrite <-(IH ds') at 2 by done. f_equal.
      rewrite Nat.div_add_l by lia. rewrite Nat.div_small by done. lia.
    + f_equal. rewrite Nat.add_comm, Nat.Div0.mod_add.
      by apply Nat.mod_small.
Qed.

Lemma elem_of_product pool r (s : list nat) :
  s ∈ product pool r ↔ length s = r ∧ Forall (λ c, c ∈ pool) s.
Proof.
  revert s. induction r as [|r IH]; intros s; cbn [product].
  - rewrite list_elem_of_singleton. split.
    + intros ->. by split.
    + intros [Hlen _]. by apply nil_length_inv.
  - rewrite list_elem_of_bind. split.
    + intros (p & Hs & Hp). apply list_elem_of_fmap in Hs as (s' & -> & Hs').
      apply IH in Hs' as [<- Hall]. split; [done|by constructor].
    + intros [Hlen Hall]. destruct Hall as [|p s' Hp Hall]; [done|].
      exists p. split; [|done]. apply list_elem_of_fmap. exists s'.
      split; [done|]. apply IH. split; [|done]. simpl in Hlen. lia.
Qed.

End Options.

(** ** Dictionaries and validation *)

Section Dictionaries.
Context {V : Type} `{Countable V}.
Implicit Types (G : Graph V) (C : gmap V nat) (vs : list V) (s : list nat).

Lemma dict_comprehension_seq s vs len i acc :
  i + len ≤ length s → i + len ≤ length vs →
  dict_comprehension (seq i len) s vs acc
  = Ok (list_to_map (reverse (zip (take len (drop i vs)) (drop i s))) ∪ acc).
Proof.
  revert i acc. induction len as [|len IH]; intros i acc Hs Hvs.
  - rewrite take_0. cbn. by rewrite (left_id_L ∅ (∪)).
  - destruct (lookup_lt_is_Some_2 vs i) as [v Hv]; [lia|].
    destruct (lookup_lt_is_Some_2 s i) as [c Hc]; [lia|].
    cbn [seq dict_comprehension]. rewrite Hv, Hc, IH by lia.
    rewrite (drop_S vs v i), (drop_S s c i) by done.
    cbn [take zip_with]. rewrite reverse_cons, list_to_map_app.
    cbn [list_to_map foldr]. cbn. rewrite <-(assoc_L (∪)).
    by rewrite insert_empty, <-insert_union_singleton_l.
Qed.

Lemma dict_comprehension_short s vs len i acc :
  i ≤ length vs → length vs < i + len → i + len ≤ length s →
  dict_comprehension (seq i len) s vs acc = Raise IndexError.
Proof.
  revert i acc. induction len as [|len IH]; intros i acc Hi Hvs Hs; [lia|].
  cbn [seq dict_comprehension].
  destruct (vs !! i) as [v|] eqn:Hv; [|done].
  apply lookup_lt_Some in Hv.
  destruct (lookup_lt_is_Some_2 s i) as [c Hc]; [lia|].
  rewrite Hc. apply IH; lia.
Qed.

Lemma colouring_list_to_dict_paired s vs :
  length s ≤ length vs → colouring_list_to_dict s vs = Ok (paired vs s).
Proof.
  intros Hlen. unfold colouring_list_to_dict, paired.
  rewrite dict_comprehension_seq by (simpl; lia).
  rewrite !drop_0, (right_id_L ∅ (∪)).
  by rewrite zip_with_take_l.
Qed.

Lemma colouring_list_to_dict_index_error s vs :
  length vs < length s → colouring_list_to_dict s vs = Raise IndexError.
Proof.
  intros Hlen. unfold colouring_list_to_dict.
  apply dict_comprehension_short; simpl; lia.
Qed.

Lemma elem_of_zip_lookup vs s v c :
  (v, c) ∈ zip vs s ↔ ∃ i, vs !! i = Some v ∧ s !! i = Some c.
Proof.
  rewrite list_elem_of_lookup. by setoid_rewrite lookup_zip_Some.
Qed.

(** A vertex gets the colour of its last position among those that have
    a colour. *)
Lemma lookup_paired_last vs s i v c :
  vs !! i = Some v → s !! i = Some c →
  (∀ j, i < j → j < length s → vs !! j ≠ Some v) →
  paired vs s !! v = Some c.
Proof.
  intros Hv Hc Hlast. unfold paired.
  assert (zip vs s !! i = Some (v, c)) as Hz by by apply lookup_zip_Some.
  rewrite <-(take_drop_middle _ _ _ Hz), reverse_app, reverse_cons.
  rewrite <-(assoc_L (++)), list_to_map_app. rewrite lookup_union_r.
  - cbn. apply lookup_insert_eq.
  - apply not_elem_of_list_to_map_1. rewrite fmap_reverse.
    rewrite elem_of_reverse, list_elem_of_fmap.
    intros ([v' c'] & -> & Hin). apply list_elem_of_lookup in Hin as [j Hj].
    rewrite lookup_drop, lookup_zip_Some in Hj. destruct Hj as [Hj1 Hj2].
    apply (Hlast (S i + j)); [lia| |done].
    by apply lookup_lt_Some in Hj2.
Qed.

Lemma lookup_paired vs s v c :
  NoDup vs →
  paired vs s !! v = Some c ↔ ∃ i, vs !! i = Some v ∧ s !! i = Some c.
Proof.
  intros Hnd. split.
  - intros Hl. apply elem_of_list_to_map_2 in Hl.
    by rewrite elem_of_reverse, elem_of_zip_lookup in Hl.
  - intros (i & Hv & Hc). apply (lookup_paired_last vs s i); [done..|].
    intros j Hij _ Hj. pose proof (NoDup_lookup _ _ _ _ Hnd Hv Hj). lia.
Qed.

Lemma lookup_paired_at vs s i v :
  NoDup vs → length s = length vs → vs !! i = Some v →
  paired vs s !! v = s !! i.
Proof.
  intros Hnd Hlen Hv.
  destruct (lookup_lt_is_Some_2 s i) as [c Hc].
  { rewrite Hlen. by eapply lookup_lt_Some. }
  rewrite Hc. apply lookup_paired; eauto.
Qed.

Lemma dom_paired vs s :
  length s ≤ length vs →
  dom (paired vs s) = list_to_set (take (length s) vs).
Proof.
  intros Hlen. unfold paired. rewrite dom_list_to_map_L, fmap_reverse.
  rewrite <-zip_with_take_l, fst_zip by (rewrite length_take; lia).
  apply set_eq. intros v. by rewrite !elem_of_list_to_set, elem_of_reverse.
Qed.

Lemma map_img_paired vs s :
  NoDup vs → length s = length vs →
  map_img (paired vs s) = (list_to_set s : gset nat).
Proof.
  intros Hnd Hlen. apply set_eq. intros c.
  rewrite elem_of_map_img, elem_of_list_to_set, list_elem_of_lookup.
  setoid_rewrite lookup_paired; [|done]. split.
  - intros (v & i & _ & Hc). eauto.
  - intros (i & Hc). destruct (lookup_lt_is_Some_2 vs i) as [v Hv].
    { rewrite <-Hlen. by eapply lookup_lt_Some. }
    eauto.
Qed.

(** Every dictionary on the vertices comes from a colour sequence. *)
Lemma paired_of_map vs C :
  NoDup vs → dom C = list_to_set vs →
  paired vs ((λ v, default 0 (C !! v)) <$> vs) = C.
Proof.
  intros Hnd Hdom. apply map_eq. intros v.
  destruct (decide (v ∈ vs)) as [Hin|Hnin].
  - apply list_elem_of_lookup in Hin as [i Hi].
    rewrite (lookup_paired_at _ _ i) by (by rewrite ?length_fmap).
    rewrite list_lookup_fmap, Hi. cbn.
    assert (v ∈ dom C) as Hd.
    { rewrite Hdom, elem_of_list_to_set. by eapply list_elem_of_lookup_2. }
    apply elem_of_dom in Hd as [c ->]. done.
  - transitivity (@None nat).
    + apply not_elem_of_dom. rewrite dom_paired by (by rewrite length_fmap).
      rewrite length_fmap, firstn_all. by rewrite elem_of_list_to_set.
    + symmetry. apply not_elem_of_dom. by rewrite Hdom, elem_of_list_to_set.
Qed.

End Dictionaries.

(** ** The loops of the two searches *)

Section Searching.
Context {V : Type} `{Countable V}.
Implicit Types (G : Graph V) (C : gmap V nat) (vs : list V) (s : list nat).
Implicit Types (o : outcome V).

Lemma validate_edges_true (es : list (V * V)) C :
  validate_edges es C = Ok true ↔
  Forall (λ e, ∃ c0 c1, C !! e.1 = Some c0 ∧ C !! e.2 = Some c1 ∧ c0 ≠ c1) es.
Proof.
  induction es as [|e es IH]; cbn [validate_edges].
  - split; [constructor|done].
  - rewrite Forall_cons, <-IH.
    destruct (C !! e.1) as [c0|], (C !! e.2) as [c1|];
      try (split; [done|intros [(? & ? & ? & ? & ?) _]; done]).
    destruct (decide (c0 = c1)) as [->|Hne].
    + split; [done|]. intros [(? & ? & ? & ? & ?) _]. congruence.
    + split; [|by intros [_ ?]]. intros Hv. split; [|done]. eauto.
Qed.

Lemma validate_colouring_proper G C :
  validate_colouring G C = Ok true ↔ proper G C.
Proof. apply validate_edges_true. Qed.

Lemma validate_edges_covered (es : list (V * V)) C :
  Forall (λ e, is_Some (C !! e.1) ∧ is_Some (C !! e.2)) es →
  ∃ b, validate_edges es C = Ok b.
Proof.
  induction 1 as [|e es [[c0 H0] [c1 H1]] _ IH]; cbn [validate_edges];
    [by eauto|].
  rewrite H0, H1. destruct (decide (c0 = c1)); eauto.
Qed.

Lemma validate_colouring_covered G C :
  well_formed G → dom C = list_to_set (vertices G) →
  ∃ b, validate_colouring G C = Ok b.
Proof.
  intros [_ Hin] Hdom. apply validate_edges_covered.
  eapply Forall_impl; [exact Hin|]. intros e [H1 H2].
  rewrite <-!elem_of_dom, Hdom, !elem_of_list_to_set. done.
Qed.

Lemma try_candidate_returned G vs s C :
  try_candidate G vs s = Some (Returned C) →
  colouring_list_to_dict s vs = Ok C ∧ validate_colouring G C = Ok true.
Proof.
  unfold try_candidate.
  destruct (colouring_list_to_dict s vs) as [C'|]; [|done].
  destruct (validate_colouring G C') as [[]|] eqn:Hv; [|done..].
  intros [= <-]. done.
Qed.

(** On a well-formed graph a candidate of the right length is either
    returned or rejected; nothing is raised. *)
Lemma try_candidate_well_formed G s :
  well_formed G → length s = length (vertices G) →
  (proper G (paired (vertices G) s) ∧
   try_candidate G (vertices G) s = Some (Returned (paired (vertices G) s)))
  ∨ (¬ proper G (paired (vertices G) s) ∧
     try_candidate G (vertices G) s = None).
Proof.
  intros Hwf Hlen. unfold try_candidate.
  rewrite colouring_list_to_dict_paired by lia.
  destruct (validate_colouring_covered G (paired (vertices G) s)) as [b Hb];
    [done| |].
  { rewrite dom_paired by lia. by rewrite Hlen, firstn_all. }
  rewrite Hb. destruct b.
  - left. by rewrite <-validate_colouring_proper.
  - right. rewrite <-validate_colouring_proper, Hb. done.
Qed.

Lemma first_hit_returned G vs cands C :
  first_hit G vs cands = Some (Returned C) →
  ∃ s, s ∈ cands ∧ colouring_list_to_dict s vs = Ok C
       ∧ validate_colouring G C = Ok true.
Proof.
  induction cands as [|s cands IH]; cbn [first_hit]; [done|].
  destruct (try_candidate G vs s) as [o|] eqn:Ht.
  - intros [= ->]. apply try_candidate_returned in Ht.
    exists s. split; [left|done].
  - intros (s' & Hin & Hs')%IH. exists s'. split; [by right|done].
Qed.

Lemma first_hit_well_formed G cands :
  well_formed G →
  Forall (λ s, length s = length (vertices G)) cands →
  (first_hit G (vertices G) cands = None ∧
   Forall (λ s, ¬ proper G (paired (vertices G) s)) cands)
  ∨ (∃ s, s ∈ cands ∧ proper G (paired (vertices G) s) ∧
          first_hit G (vertices G) cands
          = Some (Returned (paired (vertices G) s))).
Proof.
  intros Hwf. induction 1 as [|s cands Hlen _ IH]; cbn [first_hit].
  - left. split; [done|constructor].
  - destruct (try_candidate_well_formed G s Hwf Hlen) as [[Hp ->]|[Hp ->]].
    + right. exists s. split; [left|done].
    + destruct IH as [[-> Hall]|(s' & Hin & Hp' & ->)].
      * left. split; [done|by constructor].
      * right. exists s'. split; [by right|done].
Qed.

Lemma product_for_first_hit G vs colours cands :
  (product_for G vs colours cands).2
  = first_hit G vs (filter (λ s, colours - 1 ∈ s) cands).
Proof.
  induction cands as [|s cands IH]; [done|].
  cbn [product_for]. rewrite filter_cons.
  destruct (decide (colours - 1 ∈ s)); [|done].
  cbn [first_hit]. unfold try_candidate.
  destruct (colouring_list_to_dict s vs) as [C|]; [|done].
  destruct (validate_colouring G C) as [[]|]; done.
Qed.

Lemma product_for_log G vs colours cands s :
  s ∈ (product_for G vs colours cands).1 → s ∈ cands ∧ colours - 1 ∈ s.
Proof.
  induction cands as [|s' cands IH]; cbn [product_for].
  - by intros ?%elem_of_nil.
  - destruct (decide (colours - 1 ∈ s')) as [Hin|Hnin].
    + assert (s = s' → s ∈ s' :: cands ∧ colours - 1 ∈ s) as Hhere.
      { intros ->. split; [left|done]. }
      destruct (colouring_list_to_dict s' vs) as [C|]; cbn [fst].
      * destruct (validate_colouring G C) as [[]|]; cbn [fst].
        -- intros ?%list_elem_of_singleton. auto.
        -- intros [?|Hs]%elem_of_cons; [auto|].
           destruct (IH Hs). split; [by right|done].
        -- intros ?%list_elem_of_singleton. auto.
      * intros ?%list_elem_of_singleton. auto.
    + intros Hs. destruct (IH Hs). split; [by right|done].
Qed.

Lemma custom_for_first_hit G vs colours options counters :
  Forall (λ b, 0 < b) options →
  custom_for G vs colours options counters
  = first_hit G vs
      (filter (λ s, size (list_to_set s : gset nat) = colours)
         ((λ c, mixed_radix_digits c options) <$> counters)).
Proof.
  intros Hpos. induction counters as [|c counters IH]; [done|].
  cbn [custom_for]. rewrite fmap_cons, filter_cons.
  rewrite colouring_generator_digits by done.
  unfold check_all_colours_in_colouring_list.
  destruct (decide (size _ = colours)) as [Heq|Hne].
  - rewrite bool_decide_eq_true_2 by done.
    cbn [first_hit]. unfold try_candidate.
    destruct (colouring_list_to_dict _ vs) as [C|]; [|done].
    destruct (validate_colouring G C) as [[]|]; done.
  - by rewrite bool_decide_eq_false_2 by done.
Qed.

Lemma product_while_first_round fuel G colours :
  (product_while fuel G (vertices G) (length (vertices G)) colours).2
  = first_round (product_round G) fuel colours.
Proof.
  revert colours. induction fuel as [|fuel IH]; intros colours; [done|].
  cbn [product_while first_round]. unfold product_round at 1.
  destruct (product_for _ _ _ _).2; [done|]. apply IH.
Qed.

Lemma custom_while_first_round fuel G colours :
  custom_while fuel G (vertices G) (length (vertices G)) colours
  = first_round (custom_round G) fuel colours.
Proof.
  revert colours. induction fuel as [|fuel IH]; intros colours; [done|].
  cbn [custom_while first_round]. unfold custom_round at 1.
  destruct (decide (colours ≤ _)); [|done].
  cbn zeta. destruct (custom_for _ _ _ _ _); [done|]. apply IH.
Qed.

Lemma first_round_Some (round : nat → option (outcome V)) fuel colours o :
  first_round round fuel colours = Some o →
  ∃ k, colours ≤ k < colours + fuel ∧ round k = Some o ∧
       ∀ j, colours ≤ j < k → round j = None.
Proof.
  revert colours. induction fuel as [|fuel IH]; intros colours; [done|].
  cbn [first_round]. destruct (round colours) as [o'|] eqn:Hr.
  - intros [= ->]. exists colours. split; [lia|]. split; [done|]. lia.
  - intros (k & Hk & Hrk & Hbefore)%IH. exists k. split; [lia|].
    split; [done|]. intros j Hj.
    destruct (decide (j = colours)) as [->|]; [done|]. apply Hbefore. lia.
Qed.

Lemma first_round_intro (round : nat → option (outcome V)) fuel colours k o :
  round k = Some o → (∀ j, colours ≤ j < k → round j = None) →
  colours ≤ k < colours + fuel →
  first_round round fuel colours = Some o.
Proof.
  revert colours. induction fuel as [|fuel IH]; intros colours Hk Hb Hr;
    [lia|].
  cbn [first_round]. destruct (decide (k = colours)) as [->|Hne].
  - by rewrite Hk.
  - rewrite Hb by lia. apply IH; [done| |lia]. intros j Hj. apply Hb. lia.
Qed.

End Searching.

(** ** Relabelling by first appearance *)

Section Relabelling.
Implicit Types (s l : list nat).

Lemma elem_of_firsts s x : x ∈ firsts s ↔ x ∈ s.
Proof.
  induction s as [|c s IH]; [done|]. cbn [firsts].
  rewrite !elem_of_cons, list_elem_of_filter, IH.
  destruct (decide (x = c)); tauto.
Qed.

Lemma NoDup_firsts s : NoDup (firsts s).
Proof.
  induction s as [|c s IH]; cbn [firsts]; [constructor|].
  apply NoDup_cons. split; [|by apply NoDup_filter].
  rewrite list_elem_of_filter. tauto.
Qed.

Lemma length_firsts s : length (firsts s) = size (list_to_set s : gset nat).
Proof.
  rewrite <-(size_list_to_set (C:=gset nat) (firsts s)) by apply NoDup_firsts.
  f_equal. apply set_eq. intros x.
  by rewrite !elem_of_list_to_set, elem_of_firsts.
Qed.

Lemma length_firsts_le s : length (firsts s) ≤ length s.
Proof.
  induction s as [|c s IH]; cbn [firsts length]; [done|].
  pose proof (length_filter (λ x, x ≠ c) (firsts s)). lia.
Qed.

Lemma lookup_pos l x : x ∈ l → l !! pos l x = Some x.
Proof.
  induction l as [|y l IH]; [by intros ?%elem_of_nil|].
  intros Hin. cbn [pos]. destruct (decide (x = y)) as [->|Hne]; [done|].
  apply elem_of_cons in Hin as [?|Hin]; [done|]. by apply IH.
Qed.

Lemma pos_lt l x : x ∈ l → pos l x < length l.
Proof. intros Hin. eapply lookup_lt_Some. by apply lookup_pos. Qed.

Lemma pos_lookup l i x : NoDup l → l !! i = Some x → pos l x = i.
Proof.
  intros Hnd Hi. eapply NoDup_lookup; [done| |done].
  apply lookup_pos. by eapply list_elem_of_lookup_2.
Qed.

Lemma pos_filter_le (P : nat → Prop) `{!∀ x, Decision (P x)} l x :
  P x → x ∈ l → pos (filter P l) x ≤ pos l x.
Proof.
  intros HP. induction l as [|y l IH]; [by intros ?%elem_of_nil|].
  intros Hin. rewrite filter_cons. cbn [pos].
  destruct (decide (x = y)) as [->|Hne].
  - rewrite decide_True by done. cbn [pos]. by rewrite decide_True.
  - apply elem_of_cons in Hin as [?|Hin]; [done|]. specialize (IH Hin).
    destruct (decide (P y)); [|lia].
    cbn [pos]. rewrite decide_False by done. lia.
Qed.

Lemma pos_firsts_le s i x : s !! i = Some x → pos (firsts s) x ≤ i.
Proof.
  revert i. induction s as [|c s IH]; intros i Hi; [done|].
  cbn [firsts pos]. destruct (decide (x = c)) as [->|Hne]; [lia|].
  destruct i as [|i]; [by injection Hi|]. cbn in Hi.
  pose proof (IH i Hi).
  pose proof (pos_filter_le (λ y, y ≠ c) (firsts s) x Hne) as Hle.
  rewrite elem_of_firsts in Hle.
  specialize (Hle (list_elem_of_lookup_2 _ _ _ Hi)). lia.
Qed.

Lemma length_canon s : length (canon s) = length s.
Proof. apply length_fmap. Qed.

Lemma lookup_canon s i x :
  s !! i = Some x → canon s !! i = Some (pos (firsts s) x).
Proof. intros Hi. unfold canon. by rewrite list_lookup_fmap, Hi. Qed.

(** Equal new colours come from equal old colours. *)
Lemma pos_firsts_inj s x y :
  x ∈ s → y ∈ s → pos (firsts s) x = pos (firsts s) y → x = y.
Proof.
  intros Hx Hy Heq. apply elem_of_firsts, lookup_pos in Hx, Hy.
  rewrite Heq in Hx. congruence.
Qed.

(** The colour at position [i] is at most [i], and below the number of
    distinct colours. *)
Lemma canon_bounds s i d :
  canon s !! i = Some d →
  d ≤ i ∧ d < size (list_to_set s : gset nat).
Proof.
  unfold canon. rewrite list_lookup_fmap. intros Hd.
  destruct (s !! i) as [x|] eqn:Hx; [|done]. injection Hd as <-. split.
  - by apply pos_firsts_le.
  - rewrite <-length_firsts. apply pos_lt, elem_of_firsts.
    by eapply list_elem_of_lookup_2.
Qed.

(** The new colours are exactly [0 .. d-1]. *)
Lemma colours_of_canon s :
  (list_to_set (canon s) : gset nat)
  = set_seq 0 (size (list_to_set s : gset nat)).
Proof.
  apply set_eq. intros d. rewrite elem_of_list_to_set, elem_of_set_seq.
  split.
  - intros [i Hi]%list_elem_of_lookup. apply canon_bounds in Hi. lia.
  - intros [_ Hd]. rewrite <-length_firsts in Hd. cbn in Hd.
    destruct (lookup_lt_is_Some_2 _ _ Hd) as [x Hx].
    assert (x ∈ s) as [i Hi]%list_elem_of_lookup.
    { apply elem_of_firsts. by eapply list_elem_of_lookup_2. }
    apply list_elem_of_lookup. exists i.
    rewrite (lookup_canon _ _ x) by done. f_equal.
    apply pos_lookup; [apply NoDup_firsts|done].
Qed.

Lemma size_colours_of_canon s :
  size (list_to_set (canon s) : gset nat) = size (list_to_set s : gset nat).
Proof. by rewrite colours_of_canon, size_set_seq. Qed.

Lemma size_colours_le s : size (list_to_set s : gset nat) ≤ length s.
Proof. rewrite <-length_firsts. apply length_firsts_le. Qed.

Lemma size_colours_pos s : 0 < length s → 0 < size (list_to_set s : gset nat).
Proof.
  destruct s as [|c s]; [simpl; lia|]. intros _.
  rewrite <-length_firsts. simpl. lia.
Qed.

Lemma size_colours_bounded s k :
  Forall (λ c, c < k) s → size (list_to_set s : gset nat) ≤ k.
Proof.
  intros Hall. rewrite <-(size_set_seq (C:=gset nat) 0 k).
  apply subseteq_size. intros c Hc. apply elem_of_list_to_set in Hc.
  rewrite Forall_forall in Hall. apply elem_of_set_seq.
  specialize (Hall c Hc). simpl in Hall. lia.
Qed.

End Relabelling.

(** ** Properties of the helper functions *)

Section HelperProperties.

(** C7. For [1 ≤ k ≤ n], [create_options k n] has length [n] and its entry
    at position [i] is [min (i+1) k]; [create_options 3 5] is
    [[1; 2; 3; 3; 3]] and the product of its entries is 54. *)
Theorem create_options_spec k n :
  1 ≤ k → k ≤ n →
  length (create_options k n) = n ∧
  (∀ i, i < n → create_options k n !! i = Some (min (i + 1) k)) ∧
  create_options 3 5 = [1; 2; 3; 3; 3] ∧
  number_colourings (create_options 3 5) = 54.
Proof.
  intros _ Hkn. split; [by apply length_create_options|].
  split; [intros i Hi; by apply lookup_create_options|]. done.
Qed.

Lemma create_options_spec_witness :
  length (create_options 2 4) = 4 ∧
  (∀ i, i < 4 → create_options 2 4 !! i = Some (min (i + 1) 2)) ∧
  create_options 3 5 = [1; 2; 3; 3; 3] ∧
  number_colourings (create_options 3 5) = 54.
Proof. apply (create_options_spec 2 4); lia. Defined.

(** C8. For positive bounds and an index below their product,
    [colouring_generator] returns the mixed-radix digits of the index as
    the spec words them (last position first: [index mod bound], then
    [index div bound]; digits put back in position order): one digit per
    position, each below its bound, and together they stand for the index.
    [colouring_generator 5 [1; 2; 3]] is [[0; 1; 2]]. *)
Theorem colouring_generator_spec index options :
  Forall (λ b, 0 < b) options →
  index < number_colourings options →
  colouring_generator index options = Ok (mixed_radix_digits index options) ∧
  length (mixed_radix_digits index options) = length options ∧
  Forall2 (λ d b, d < b) (mixed_radix_digits index options) options ∧
  mixed_radix_value options (mixed_radix_digits index options) = index ∧
  colouring_generator 5 [1; 2; 3] = Ok [0; 1; 2].
Proof.
  intros Hpos Hlt. split; [by apply colouring_generator_digits|].
  split; [by apply length_mixed_radix_digits|].
  split; [by apply mixed_radix_digits_lt|].
  split; [by apply mixed_radix_value_digits|done].
Qed.

Lemma colouring_generator_spec_witness :
  colouring_generator 41 [1; 2; 3; 3; 3]
  = Ok (mixed_radix_digits 41 [1; 2; 3; 3; 3]) ∧
  length (mixed_radix_digits 41 [1; 2; 3; 3; 3]) = length [1; 2; 3; 3; 3] ∧
  Forall2 (λ d b, d < b) (mixed_radix_digits 41 [1; 2; 3; 3; 3])
    [1; 2; 3; 3; 3] ∧
  mixed_radix_value [1; 2; 3; 3; 3] (mixed_radix_digits 41 [1; 2; 3; 3; 3])
  = 41 ∧
  colouring_generator 5 [1; 2; 3] = Ok [0; 1; 2].
Proof.
  apply (colouring_generator_spec 41 [1; 2; 3; 3; 3]).
  - repeat constructor.
  - vm_compute. lia.
Defined.

(** C6. For [2 ≤ k ≤ n] the custom search goes through fewer candidates at
    colour count [k] (the product of the entries of [create_options k n])
    than the [k ^ n] sequences [product] hands to the product search. *)
Theorem custom_enumerates_fewer k n :
  2 ≤ k → k ≤ n →
  number_colourings (create_options k n) < length (product (seq 0 k) n) ∧
  length (product (seq 0 k) n) = k ^ n.
Proof.
  intros Hk Hkn. rewrite length_product, length_seq. split; [|done].
  unfold create_options. rewrite length_seq.
  destruct k as [|k]; [lia|]. cbn [seq].
  rewrite number_colourings_app, number_colourings_cons.
  rewrite number_colourings_replicate.
  assert (number_colourings (seq 2 k) ≤ S k ^ k) as Hle.
  { pose proof (number_colourings_le (S k) (seq 2 k)) as Hle.
    rewrite length_seq in Hle. apply Hle.
    apply Forall_seq. intros j Hj. lia. }
  replace n with (S k + (n - S k)) at 2 by lia.
  rewrite Nat.pow_add_r. apply Nat.mul_lt_mono_pos_r.
  - apply Nat.neq_0_lt_0, Nat.pow_nonzero. lia.
  - cbn [Nat.pow]. assert (0 < S k ^ k).
    { apply Nat.neq_0_lt_0, Nat.pow_nonzero. lia. }
    nia.
Qed.

Lemma custom_enumerates_fewer_witness :
  number_colourings (create_options 3 5) < length (product (seq 0 3) 5) ∧
  length (product (seq 0 3) 5) = 3 ^ 5.
Proof. apply (custom_enumerates_fewer 3 5); lia. Defined.

End HelperProperties.

(** ** Properties of the materializer and of what the searches return *)

Section SearchProperties.
Context {V : Type} `{Countable V}.
Implicit Types (G : Graph V) (C : gmap V nat) (vs : list V) (s : list nat).

(** C9, as the code has it.  When there are at least as many vertices as
    colours, [colouring_list_to_dict] returns a dictionary whose keys are
    the first [length s] vertices and in which the vertex at position [i]
    has the colour at position [i] (for a vertex listed more than once, the
    colour at its last such position).  It raises (an index error) exactly
    when there are more colours than vertices. *)
Theorem colouring_list_to_dict_spec s vs :
  (length s ≤ length vs →
   ∃ C, colouring_list_to_dict s vs = Ok C ∧
        dom C = list_to_set (take (length s) vs) ∧
        ∀ i v c, vs !! i = Some v → s !! i = Some c →
                 (∀ j, i < j → j < length s → vs !! j ≠ Some v) →
                 C !! v = Some c) ∧
  (length vs < length s → colouring_list_to_dict s vs = Raise IndexError).
Proof.
  split.
  - intros Hlen. exists (paired vs s).
    split; [by apply colouring_list_to_dict_paired|].
    split; [by apply dom_paired|].
    intros i v c. apply lookup_paired_last.
  - apply colouring_list_to_dict_index_error.
Qed.

(** C5. Whatever the product search converts and validates while [colours]
    is [k] is a sequence over [0 .. k-1], one entry per vertex, that
    contains [k - 1]; a sequence without [k - 1] is never validated. *)
Theorem product_validates_only_with_top_colour fuel G k s :
  (k, s) ∈ product_validated fuel G →
  1 ≤ k ∧ length s = length (vertices G) ∧ Forall (λ c, c < k) s ∧ k - 1 ∈ s.
Proof.
  unfold product_validated, product_run. cbn zeta.
  assert (∀ colours,
    (k, s) ∈ (product_while fuel G (vertices G) (length (vertices G))
                colours).1 →
    colours ≤ k ∧ length s = length (vertices G) ∧
    Forall (λ c, c < k) s ∧ k - 1 ∈ s) as Hgen.
  { induction fuel as [|fuel IH]; intros colours; cbn [product_while].
    { by intros ?%elem_of_nil. }
    assert ((k, s) ∈ (colours,.) <$>
              (product_for G (vertices G) colours
                 (product (seq 0 colours) (length (vertices G)))).1 →
            colours ≤ k ∧ length s = length (vertices G) ∧
            Forall (λ c, c < k) s ∧ k - 1 ∈ s) as Hhere.
    { intros (s' & [= -> ->] & Hs')%list_elem_of_fmap.
      apply product_for_log in Hs' as [Hs' Htop].
      apply elem_of_product in Hs' as [Hlen Hall].
      split; [done|]. split; [done|]. split; [|done].
      eapply Forall_impl; [exact Hall|]. intros c Hc.
      apply elem_of_seq in Hc. lia. }
    destruct (product_for _ _ _ _).2; cbn [fst]; [done|].
    intros [Hin|Hin]%elem_of_app; [auto|].
    apply IH in Hin. intuition lia. }
  intros Hin. apply Hgen in Hin. intuition lia.
Qed.

(** C1. A dictionary returned by either search passes
    [validate_colouring]: both ends of every edge are coloured, and
    differently. *)
Theorem returned_colouring_valid fuel G C :
  product_brute_force_colouring fuel G = Some (Returned C) ∨
  custom_brute_force_colouring fuel G = Some (Returned C) →
  validate_colouring G C = Ok true ∧
  ∀ u v, (u, v) ∈ edges G →
         is_Some (C !! u) ∧ is_Some (C !! v) ∧ C !! u ≠ C !! v.
Proof.
  intros Hret.
  assert (validate_colouring G C = Ok true) as Hval.
  { destruct Hret as [Hp|Hc].
    - unfold product_brute_force_colouring, product_run in Hp.
      cbn zeta in Hp. rewrite product_while_first_round in Hp.
      apply first_round_Some in Hp as (k & _ & Hk & _).
      unfold product_round in Hk. rewrite product_for_first_hit in Hk.
      by apply first_hit_returned in Hk as (s & _ & _ & Hv).
    - unfold custom_brute_force_colouring in Hc. cbn zeta in Hc.
      rewrite custom_while_first_round in Hc.
      apply first_round_Some in Hc as (k & Hk1 & Hk & _).
      unfold custom_round in Hk.
      destruct (decide (k ≤ length (vertices G))); [|done].
      cbn zeta in Hk.
      rewrite custom_for_first_hit in Hk by (apply create_options_pos; lia).
      by apply first_hit_returned in Hk as (s & _ & _ & Hv). }
  split; [done|]. intros u v Huv.
  apply validate_colouring_proper in Hval.
  unfold proper in Hval. rewrite Forall_forall in Hval.
  destruct (Hval _ Huv) as (c0 & c1 & H0 & H1 & Hne). cbn in H0, H1.
  rewrite H0, H1. split; [done|]. split; [done|]. congruence.
Qed.

(** C10. On a graph with pairwise different vertices, the first of them has
    colour 0 in every dictionary the custom search returns: the first
    entry of the options vector is 1, so every generated candidate starts
    with 0. *)
Theorem custom_first_vertex_colour_0 fuel G C v rest :
  NoDup (vertices G) → vertices G = v :: rest →
  custom_brute_force_colouring fuel G = Some (Returned C) →
  C !! v = Some 0 ∧
  (∀ k index, 1 ≤ k → k ≤ length (vertices G) →
     create_options k (length (vertices G)) !! 0 = Some 1 ∧
     ∃ s, colouring_generator index (create_options k (length (vertices G)))
          = Ok s ∧ s !! 0 = Some 0).
Proof.
  intros Hnd Hvs Hc.
  assert (0 < length (vertices G)) as Hn by (rewrite Hvs; simpl; lia).
  assert (∀ k index, 1 ≤ k → k ≤ length (vertices G) →
    create_options k (length (vertices G)) !! 0 = Some 1 ∧
    length (mixed_radix_digits index
              (create_options k (length (vertices G))))
    = length (vertices G) ∧
    mixed_radix_digits index (create_options k (length (vertices G))) !! 0
    = Some 0) as Hfirst.
  { intros k index Hk1 Hkn.
    pose proof (lookup_create_options k _ 0 Hkn Hn) as Ho.
    replace (min (0 + 1) k) with 1 in Ho by lia. split; [done|].
    pose proof (length_mixed_radix_digits index
                  (create_options k (length (vertices G)))) as Hlen.
    rewrite length_create_options in Hlen by done. split; [done|].
    pose proof (mixed_radix_digits_lt index
                  (create_options k (length (vertices G)))
                  (create_options_pos k _ Hk1)) as Hlt.
    destruct (lookup_lt_is_Some_2 (mixed_radix_digits index
                (create_options k (length (vertices G)))) 0) as [d Hd];
      [lia|].
    pose proof (Forall2_lookup_lr _ _ _ _ _ _ Hlt Hd Ho) as Hd1.
    cbn beta in Hd1. rewrite Hd. f_equal. lia. }
  split.
  - unfold custom_brute_force_colouring in Hc. cbn zeta in Hc.
    rewrite custom_while_first_round in Hc.
    apply first_round_Some in Hc as (k & Hk1 & Hk & _).
    unfold custom_round in Hk.
    destruct (decide (k ≤ length (vertices G))) as [Hkn|]; [|done].
    cbn zeta in Hk.
    rewrite custom_for_first_hit in Hk by (apply create_options_pos; lia).
    apply first_hit_returned in Hk as (s & Hs & Hdict & _).
    apply list_elem_of_filter in Hs as [_ Hs].
    apply list_elem_of_fmap in Hs as (index & -> & _).
    destruct (Hfirst k index) as (_ & Hlen & H0); [lia|done|].
    rewrite colouring_list_to_dict_paired in Hdict by lia.
    injection Hdict as <-.
    rewrite (lookup_paired_at _ _ 0); [done..|]. by rewrite Hvs.
  - intros k index Hk1 Hkn. destruct (Hfirst k index) as (Ho & _ & H0);
      [done..|].
    split; [done|]. eexists. split; [|exact H0].
    apply colouring_generator_digits. by apply create_options_pos.
Qed.

End SearchProperties.

Lemma colouring_list_to_dict_spec_witness :
  (∃ C : gmap nat nat, colouring_list_to_dict [0; 1] [7; 8; 9] = Ok C ∧
        dom C = list_to_set (take (length [0; 1]) [7; 8; 9]) ∧
        ∀ i v c, [7; 8; 9] !! i = Some v → [0; 1] !! i = Some c →
                 (∀ j, i < j → j < length [0; 1] → [7; 8; 9] !! j ≠ Some v) →
                 C !! v = Some c) ∧
  colouring_list_to_dict [0; 1; 2] [7; 8] = Raise IndexError.
Proof.
  split.
  - apply (colouring_list_to_dict_spec [0; 1] [7; 8; 9]). simpl. lia.
  - apply (colouring_list_to_dict_spec [0; 1; 2] [7; 8]). simpl. lia.
Defined.

(** C9 as the spec words it fails: a colour sequence shorter than the
    vertex sequence is converted without any error. *)
Lemma colouring_list_to_dict_shorter_no_error :
  length [0] ≠ length [7; 8] ∧
  colouring_list_to_dict [0] [7; 8] = Ok ({[7 := 0]} : gmap nat nat).
Proof. split; [simpl; lia|]. vm_compute. reflexivity. Qed.

Lemma product_validates_only_with_top_colour_witness :
  1 ≤ 2 ∧ length [0; 1; 0] = length (vertices path3) ∧
  Forall (λ c, c < 2) [0; 1; 0] ∧ 2 - 1 ∈ [0; 1; 0].
Proof.
  apply (product_validates_only_with_top_colour 2 path3 2 [0; 1; 0]).
  vm_compute. do 2 right. left.
Defined.

Lemma returned_colouring_valid_witness :
  validate_colouring triangle (paired [0; 1; 2] [0; 1; 2]) = Ok true ∧
  ∀ u v, (u, v) ∈ edges triangle →
         is_Some (paired [0; 1; 2] [0; 1; 2] !! u) ∧
         is_Some (paired [0; 1; 2] [0; 1; 2] !! v) ∧
         paired [0; 1; 2] [0; 1; 2] !! u ≠ paired [0; 1; 2] [0; 1; 2] !! v.
Proof.
  apply (returned_colouring_valid 3 triangle (paired [0; 1; 2] [0; 1; 2])).
  left. vm_compute. reflexivity.
Defined.

Lemma custom_first_vertex_colour_0_witness :
  paired [7; 8; 9] [0; 1; 0] !! 7 = Some 0 ∧
  (∀ k index, 1 ≤ k → k ≤ length (vertices path3) →
     create_options k (length (vertices path3)) !! 0 = Some 1 ∧
     ∃ s, colouring_generator index (create_options k (length (vertices path3)))
          = Ok s ∧ s !! 0 = Some 0).
Proof.
  apply (custom_first_vertex_colour_0 2 path3
           (paired [7; 8; 9] [0; 1; 0]) 7 [8; 9]).
  - compute_done.
  - reflexivity.
  - vm_compute. reflexivity.
Defined.

(** ** Candidates that end a round *)

Section Rounds.
Context {V : Type} `{Countable V}.
Implicit Types (G : Graph V) (C : gmap V nat) (s : list nat).

Lemma proper_lookup G s :
  well_formed G → length s = length (vertices G) →
  proper G (paired (vertices G) s) ↔
  ∀ i j u v, (u, v) ∈ edges G →
             vertices G !! i = Some u → vertices G !! j = Some v →
             s !! i ≠ s !! j.
Proof.
  intros [Hnd Hin] Hlen. unfold proper. rewrite !Forall_forall in *. split.
  - intros Hp i j u v He Hi Hj.
    destruct (Hp _ He) as (c0 & c1 & H0 & H1 & Hne). cbn in H0, H1.
    rewrite (lookup_paired_at _ _ i) in H0 by done.
    rewrite (lookup_paired_at _ _ j) in H1 by done. congruence.
  - intros Hp [u v] He. destruct (Hin _ He) as [Hu Hv]. cbn in Hu, Hv.
    apply list_elem_of_lookup in Hu as [i Hi].
    apply list_elem_of_lookup in Hv as [j Hj].
    destruct (lookup_lt_is_Some_2 s i) as [c0 H0].
    { rewrite Hlen. by eapply lookup_lt_Some. }
    destruct (lookup_lt_is_Some_2 s j) as [c1 H1].
    { rewrite Hlen. by eapply lookup_lt_Some. }
    exists c0, c1. cbn.
    rewrite (lookup_paired_at _ _ i), (lookup_paired_at _ _ j) by done.
    split; [done|]. split; [done|]. intros ->.
    apply (Hp i j u v); [done..|]. congruence.
Qed.

Lemma proper_canon G s :
  well_formed G → length s = length (vertices G) →
  proper G (paired (vertices G) s) →
  proper G (paired (vertices G) (canon s)).
Proof.
  intros Hwf Hlen Hp. rewrite proper_lookup in Hp by done.
  apply proper_lookup; [done|by rewrite length_canon|].
  intros i j u v He Hi Hj Heq. apply (Hp i j u v); [done..|].
  destruct (lookup_lt_is_Some_2 s i) as [x Hx].
  { rewrite Hlen. by eapply lookup_lt_Some. }
  destruct (lookup_lt_is_Some_2 s j) as [y Hy].
  { rewrite Hlen. by eapply lookup_lt_Some. }
  rewrite (lookup_canon _ _ x), (lookup_canon _ _ y) in Heq by done.
  injection Heq as Heq. rewrite Hx, Hy. f_equal.
  apply (pos_firsts_inj s); [by eapply list_elem_of_lookup_2..|done].
Qed.

(** One colour per vertex is proper when no edge is a loop. *)
Lemma proper_all_different G :
  well_formed G → loop_free G →
  proper G (paired (vertices G) (seq 0 (length (vertices G)))).
Proof.
  intros Hwf Hlf. apply proper_lookup; [done|by rewrite length_seq|].
  intros i j u v He Hi Hj.
  rewrite !lookup_seq_lt by (by eapply lookup_lt_Some).
  intros [= ->]. unfold loop_free in Hlf. rewrite Forall_forall in Hlf.
  apply (Hlf _ He). cbn. congruence.
Qed.

Lemma colours_used_paired G s :
  well_formed G → length s = length (vertices G) →
  colours_used (paired (vertices G) s) = size (list_to_set s : gset nat).
Proof.
  intros [Hnd _] Hlen. unfold colours_used. by rewrite map_img_paired.
Qed.

Lemma k_colouring_paired G s k :
  well_formed G → length s = length (vertices G) →
  Forall (λ c, c < k) s → proper G (paired (vertices G) s) →
  k_colouring G k (paired (vertices G) s).
Proof.
  intros Hwf Hlen Hall Hp. split; [|split; [|done]].
  - rewrite dom_paired by lia. by rewrite Hlen, firstn_all.
  - intros v c Hv. apply lookup_paired in Hv as (i & _ & Hi); [|apply Hwf].
    rewrite Forall_forall in Hall. apply Hall.
    by eapply list_elem_of_lookup_2.
Qed.

Lemma colourable_sequence G k :
  well_formed G → colourable G k →
  ∃ s, length s = length (vertices G) ∧ Forall (λ c, c < k) s ∧
       proper G (paired (vertices G) s).
Proof.
  intros [Hnd Hin] (C & Hdom & Hlt & Hp).
  exists ((λ v, default 0 (C !! v)) <$> vertices G).
  split; [by rewrite length_fmap|]. split.
  - apply Forall_fmap, Forall_forall. intros v Hv. cbn.
    assert (v ∈ dom C) as [c Hc]%elem_of_dom.
    { by rewrite Hdom, elem_of_list_to_set. }
    rewrite Hc. cbn. by apply (Hlt v).
  - by rewrite paired_of_map.
Qed.

(** *** What a round returns *)

Lemma product_round_returned G k C :
  product_round G k = Some (Returned C) →
  ∃ s, C = paired (vertices G) s ∧ length s = length (vertices G) ∧
       k - 1 ∈ s ∧ Forall (λ c, c < k) s ∧ proper G C.
Proof.
  unfold product_round. rewrite product_for_first_hit.
  intros (s & Hs & Hdict & Hval)%first_hit_returned.
  apply list_elem_of_filter in Hs as [Htop Hs].
  apply elem_of_product in Hs as [Hlen Hall].
  rewrite colouring_list_to_dict_paired in Hdict by lia.
  injection Hdict as <-. exists s. split; [done|]. split; [done|].
  split; [done|]. split; [|by apply validate_colouring_proper].
  eapply Forall_impl; [exact Hall|]. intros c Hc.
  apply elem_of_seq in Hc. lia.
Qed.

Lemma custom_round_returned G k C :
  1 ≤ k → custom_round G k = Some (Returned C) →
  ∃ s, C = paired (vertices G) s ∧ length s = length (vertices G) ∧
       size (list_to_set s : gset nat) = k ∧ proper G C.
Proof.
  intros Hk. unfold custom_round.
  destruct (decide (k ≤ length (vertices G))) as [Hkn|]; [|done].
  cbn zeta. rewrite custom_for_first_hit by (by apply create_options_pos).
  intros (s & Hs & Hdict & Hval)%first_hit_returned.
  apply list_elem_of_filter in Hs as [Hsize Hs].
  apply list_elem_of_fmap in Hs as (index & -> & _).
  pose proof (length_mixed_radix_digits index
                (create_options k (length (vertices G)))) as Hlen.
  rewrite length_create_options in Hlen by done.
  rewrite colouring_list_to_dict_paired in Hdict by lia.
  injection Hdict as <-. eexists. split; [done|]. split; [done|].
  split; [done|]. by apply validate_colouring_proper.
Qed.

(** *** A round ends with a dictionary or goes on *)

Lemma product_round_well_formed G k :
  well_formed G →
  product_round G k = None ∨ ∃ C, product_round G k = Some (Returned C).
Proof.
  intros Hwf. unfold product_round. rewrite product_for_first_hit.
  destruct (first_hit_well_formed G
    (filter (λ s, k - 1 ∈ s)
       (product (seq 0 k) (length (vertices G)))) Hwf)
    as [[Hnone _]|(s & _ & _ & Hret)]; [|by left|by right; eexists].
  apply Forall_forall. intros s [_ Hs]%list_elem_of_filter.
  by apply elem_of_product in Hs as [Hlen _].
Qed.

Lemma custom_round_well_formed G k :
  well_formed G → 1 ≤ k → k ≤ length (vertices G) →
  custom_round G k = None ∨ ∃ C, custom_round G k = Some (Returned C).
Proof.
  intros Hwf Hk Hkn. unfold custom_round. rewrite decide_True by done.
  cbn zeta. rewrite custom_for_first_hit by (by apply create_options_pos).
  destruct (first_hit_well_formed G
    (filter (λ s, size (list_to_set s : gset nat) = k)
       ((λ c, mixed_radix_digits c (create_options k (length (vertices G))))
          <$> seq 0 (number_colourings
                       (create_options k (length (vertices G)))))) Hwf)
    as [[Hnone _]|(s & _ & _ & Hret)]; [|by left|by right; eexists].
  apply Forall_forall. intros s [_ Hs]%list_elem_of_filter.
  apply list_elem_of_fmap in Hs as (index & -> & _).
  rewrite length_mixed_radix_digits. by apply length_create_options.
Qed.

(** *** A proper sequence with [d] distinct colours ends round [d] *)

Lemma product_round_hit G s :
  well_formed G → length s = length (vertices G) → 0 < length s →
  proper G (paired (vertices G) s) →
  ∃ C, product_round G (size (list_to_set s : gset nat)) = Some (Returned C).
Proof.
  intros Hwf Hlen Hpos Hp.
  destruct (product_round_well_formed G (size (list_to_set s : gset nat)) Hwf)
    as [Hnone|Hsome]; [|done].
  exfalso. unfold product_round in Hnone.
  rewrite product_for_first_hit in Hnone.
  set (d := size (list_to_set s : gset nat)) in *.
  pose proof (size_colours_pos s Hpos) as Hd. fold d in Hd.
  destruct (first_hit_well_formed G
    (filter (λ t, d - 1 ∈ t) (product (seq 0 d) (length (vertices G)))) Hwf)
    as [[_ Hall]|(t & _ & _ & Hret)].
  - apply Forall_forall. intros t [_ Ht]%list_elem_of_filter.
    by apply elem_of_product in Ht as [? _].
  - rewrite Forall_forall in Hall. apply (Hall (canon s)).
    + apply list_elem_of_filter. split.
      * apply (elem_of_list_to_set (C:=gset nat)).
        rewrite colours_of_canon. fold d. apply elem_of_set_seq. lia.
      * apply elem_of_product. split; [by rewrite length_canon|].
        apply Forall_forall. intros c [i Hc]%list_elem_of_lookup.
        apply canon_bounds in Hc. fold d in Hc. apply elem_of_seq. lia.
    + by apply proper_canon.
  - congruence.
Qed.

Lemma custom_round_hit G s :
  well_formed G → length s = length (vertices G) → 0 < length s →
  proper G (paired (vertices G) s) →
  ∃ C, custom_round G (size (list_to_set s : gset nat)) = Some (Returned C).
Proof.
  intros Hwf Hlen Hpos Hp.
  set (d := size (list_to_set s : gset nat)).
  pose proof (size_colours_pos s Hpos) as Hd. fold d in Hd.
  pose proof (size_colours_le s) as Hdn. fold d in Hdn. rewrite Hlen in Hdn.
  destruct (custom_round_well_formed G d Hwf) as [Hnone|Hsome];
    [lia|done| |done].
  exfalso. unfold custom_round in Hnone. rewrite decide_True in Hnone by done.
  cbn zeta in Hnone.
  rewrite custom_for_first_hit in Hnone by (apply create_options_pos; lia).
  set (options := create_options d (length (vertices G))) in *.
  assert (Forall2 (λ c b, c < b) (canon s) options) as Hdigits.
  { apply Forall2_same_length_lookup. split.
    - unfold options. rewrite length_canon, length_create_options; done.
    - intros i c b Hc Hb.
      assert (i < length (vertices G)) as Hi.
      { apply lookup_lt_Some in Hc. rewrite length_canon in Hc. lia. }
      unfold options in Hb. rewrite lookup_create_options in Hb by done.
      injection Hb as <-. apply canon_bounds in Hc. fold d in Hc. lia. }
  destruct (first_hit_well_formed G
    (filter (λ t, size (list_to_set t : gset nat) = d)
       ((λ c, mixed_radix_digits c options)
          <$> seq 0 (number_colourings options))) Hwf)
    as [[_ Hall]|(t & _ & _ & Hret)].
  - apply Forall_forall. intros t [_ Ht]%list_elem_of_filter.
    apply list_elem_of_fmap in Ht as (index & -> & _).
    rewrite length_mixed_radix_digits. by apply length_create_options.
  - rewrite Forall_forall in Hall. apply (Hall (canon s)).
    + apply list_elem_of_filter. split; [apply size_colours_of_canon|].
      apply list_elem_of_fmap. exists (mixed_radix_value options (canon s)).
      split; [by rewrite mixed_radix_digits_value|].
      apply elem_of_seq. pose proof (mixed_radix_value_lt _ _ Hdigits). lia.
    + by apply proper_canon.
  - congruence.
Qed.

Lemma first_round_least (round : nat → option (outcome V)) fuel colours k o :
  round k = Some o → colours ≤ k < colours + fuel →
  ∃ k' o', colours ≤ k' ≤ k ∧ round k' = Some o' ∧
           first_round round fuel colours = Some o'.
Proof.
  revert colours. induction fuel as [|fuel IH]; intros colours Hk Hr; [lia|].
  cbn [first_round]. destruct (round colours) as [o'|] eqn:Hc.
  - exists colours, o'. split; [lia|done].
  - destruct (decide (k = colours)) as [->|Hne]; [congruence|].
    destruct (IH (colours + 1)) as (k' & o' & Hk' & Hrk' & Hf); [done|lia|].
    exists k', o'. split; [lia|done].
Qed.

End Rounds.

(** ** Termination and minimality of the searches *)

Section Minimality.
Context {V : Type} `{Countable V}.
Implicit Types (G : Graph V) (C : gmap V nat) (s : list nat).

(** A search that returned did so with a dictionary built from a proper
    colour sequence. *)
Lemma returned_is_paired fuel G C :
  product_brute_force_colouring fuel G = Some (Returned C) ∨
  custom_brute_force_colouring fuel G = Some (Returned C) →
  ∃ s, C = paired (vertices G) s ∧ length s = length (vertices G) ∧
       proper G C.
Proof.
  intros [Hp|Hc].
  - unfold product_brute_force_colouring, product_run in Hp. cbn zeta in Hp.
    rewrite product_while_first_round in Hp.
    apply first_round_Some in Hp as (k & _ & Hk & _).
    apply product_round_returned in Hk as (s & ? & ? & _ & _ & ?). eauto.
  - unfold custom_brute_force_colouring in Hc. cbn zeta in Hc.
    rewrite custom_while_first_round in Hc.
    apply first_round_Some in Hc as (k & Hk1 & Hk & _).
    apply custom_round_returned in Hk as (s & ? & ? & _ & ?); [|lia]. eauto.
Qed.

(** Given any proper colour sequence with [d] distinct colours, both
    searches return within [d] rounds. *)
Lemma product_returns G s fuel :
  well_formed G → length s = length (vertices G) → 0 < length s →
  proper G (paired (vertices G) s) →
  size (list_to_set s : gset nat) ≤ fuel →
  ∃ C, product_brute_force_colouring fuel G = Some (Returned C).
Proof.
  intros Hwf Hlen Hpos Hp Hfuel.
  destruct (product_round_hit G s Hwf Hlen Hpos Hp) as [C Hhit].
  pose proof (size_colours_pos s Hpos) as Hd.
  destruct (first_round_least (product_round G) fuel 1 _ _ Hhit)
    as (k & o & Hk & Hrk & Hfirst); [lia|].
  unfold product_brute_force_colouring, product_run. cbn zeta.
  rewrite product_while_first_round, Hfirst.
  destruct (product_round_well_formed G k Hwf) as [Hnone|[C' Hsome]];
    [congruence|].
  exists C'. congruence.
Qed.

Lemma custom_returns G s fuel :
  well_formed G → length s = length (vertices G) → 0 < length s →
  proper G (paired (vertices G) s) →
  size (list_to_set s : gset nat) ≤ fuel →
  ∃ C, custom_brute_force_colouring fuel G = Some (Returned C).
Proof.
  intros Hwf Hlen Hpos Hp Hfuel.
  destruct (custom_round_hit G s Hwf Hlen Hpos Hp) as [C Hhit].
  pose proof (size_colours_pos s Hpos) as Hd.
  pose proof (size_colours_le s) as Hdn.
  destruct (first_round_least (custom_round G) fuel 1 _ _ Hhit)
    as (k & o & Hk & Hrk & Hfirst); [lia|].
  unfold custom_brute_force_colouring. cbn zeta.
  rewrite custom_while_first_round, Hfirst.
  destruct (custom_round_well_formed G k Hwf) as [Hnone|[C' Hsome]];
    [lia|lia|congruence|].
  exists C'. congruence.
Qed.

(** What a search returns has no more distinct colours than any proper
    colour sequence. *)
Lemma returned_colours_le fuel G C s :
  well_formed G →
  product_brute_force_colouring fuel G = Some (Returned C) ∨
  custom_brute_force_colouring fuel G = Some (Returned C) →
  length s = length (vertices G) → proper G (paired (vertices G) s) →
  colours_used C ≤ size (list_to_set s : gset nat).
Proof.
  intros Hwf Hret Hlen Hp.
  destruct (decide (length s = 0)) as [Hzero|Hpos].
  { destruct (returned_is_paired _ _ _ Hret) as (t & -> & Hlt & _).
    rewrite colours_used_paired by done.
    pose proof (size_colours_le t). lia. }
  assert (0 < length s) as Hpos' by lia.
  pose proof (size_colours_pos s Hpos') as Hd.
  destruct Hret as [Hr|Hr].
  - unfold product_brute_force_colouring, product_run in Hr. cbn zeta in Hr.
    rewrite product_while_first_round in Hr.
    apply first_round_Some in Hr as (k & Hk1 & Hk & Hbefore).
    apply product_round_returned in Hk as (t & -> & Hlt & _ & Hall & _).
    rewrite colours_used_paired by done.
    pose proof (size_colours_bounded t k Hall).
    destruct (decide (size (list_to_set s : gset nat) < k)) as [Hlt'|]; [|lia].
    destruct (product_round_hit G s Hwf Hlen Hpos' Hp) as [C' Hhit].
    rewrite Hbefore in Hhit by lia. done.
  - unfold custom_brute_force_colouring in Hr. cbn zeta in Hr.
    rewrite custom_while_first_round in Hr.
    apply first_round_Some in Hr as (k & Hk1 & Hk & Hbefore).
    apply custom_round_returned in Hk as (t & -> & Hlt & Hsize & _); [|lia].
    rewrite colours_used_paired by done.
    destruct (decide (size (list_to_set s : gset nat) < k)) as [Hlt'|]; [|lia].
    destruct (custom_round_hit G s Hwf Hlen Hpos' Hp) as [C' Hhit].
    rewrite Hbefore in Hhit by lia. done.
Qed.

(** A dictionary built from a proper colour sequence shows that the graph
    can be coloured with as many colours as the dictionary uses. *)
Lemma colourable_colours_used G s :
  well_formed G → length s = length (vertices G) →
  proper G (paired (vertices G) s) →
  colourable G (colours_used (paired (vertices G) s)).
Proof.
  intros Hwf Hlen Hp. exists (paired (vertices G) (canon s)).
  rewrite colours_used_paired by done.
  apply k_colouring_paired; [done|by rewrite length_canon| |].
  - apply Forall_forall. intros c [i Hc]%list_elem_of_lookup.
    by apply canon_bounds in Hc as [_ ?].
  - by apply proper_canon.
Qed.

Lemma first_round_mono (round : nat → option (outcome V)) fuel fuel'
    colours o :
  first_round round fuel colours = Some o → fuel ≤ fuel' →
  first_round round fuel' colours = Some o.
Proof.
  intros (k & Hk & Hrk & Hbefore)%first_round_Some Hle.
  apply (first_round_intro _ _ _ k); [done..|lia].
Qed.

Lemma first_round_None (round : nat → option (outcome V)) fuel colours :
  (∀ k, colours ≤ k → round k = None) →
  first_round round fuel colours = None.
Proof.
  revert colours. induction fuel as [|fuel IH]; intros colours Hr; [done|].
  cbn [first_round]. rewrite Hr by lia. apply IH. intros k Hk. apply Hr. lia.
Qed.

(** With a loop among the edges nothing is proper. *)
Lemma loop_not_proper G C u : (u, u) ∈ edges G → ¬ proper G C.
Proof.
  intros He Hp. unfold proper in Hp. rewrite Forall_forall in Hp.
  destruct (Hp _ He) as (c0 & c1 & H0 & H1 & Hne). cbn in H0, H1. congruence.
Qed.

Lemma product_never_returns_with_loop G u fuel :
  well_formed G → (u, u) ∈ edges G →
  product_brute_force_colouring fuel G = None.
Proof.
  intros Hwf He. unfold product_brute_force_colouring, product_run.
  cbn zeta. rewrite product_while_first_round. apply first_round_None.
  intros k _. destruct (product_round_well_formed G k Hwf) as [?|[C HC]];
    [done|].
  apply product_round_returned in HC as (_ & _ & _ & _ & _ & Hp).
  by apply loop_not_proper with (u := u) in Hp.
Qed.

Lemma custom_reports_none_with_loop G u fuel :
  well_formed G → (u, u) ∈ edges G → length (vertices G) < fuel →
  custom_brute_force_colouring fuel G = Some ReturnedNone.
Proof.
  intros Hwf He Hfuel. unfold custom_brute_force_colouring. cbn zeta.
  rewrite custom_while_first_round.
  apply (first_round_intro _ _ _ (length (vertices G) + 1)); [| |lia].
  - unfold custom_round. by rewrite decide_False by lia.
  - intros k Hk.
    destruct (custom_round_well_formed G k Hwf) as [?|[C HC]]; [lia..|done|].
    apply custom_round_returned in HC as (_ & _ & _ & _ & Hp); [|lia].
    by apply loop_not_proper with (u := u) in Hp.
Qed.

Lemma product_never_returns_without_vertices G fuel :
  vertices G = [] → product_brute_force_colouring fuel G = None.
Proof.
  intros Hvs. unfold product_brute_force_colouring, product_run.
  cbn zeta. rewrite product_while_first_round. apply first_round_None.
  intros k _. unfold product_round. rewrite Hvs. cbn [length product].
  cbn [product_for]. rewrite decide_False; [done|]. apply not_elem_of_nil.
Qed.

(** C2, for graphs that can be coloured.  On a graph whose vertices are
    pairwise different, whose edges join two different vertices of the
    graph, and which has at least one vertex, both searches return a valid
    colouring within as many rounds as there are vertices, that is at a
    colour count of at most [n]; more rounds change nothing. *)
Theorem searches_return_within_n G :
  well_formed G → loop_free G → 1 ≤ length (vertices G) →
  ∃ C1 C2,
    (∀ fuel, length (vertices G) ≤ fuel →
       product_brute_force_colouring fuel G = Some (Returned C1) ∧
       custom_brute_force_colouring fuel G = Some (Returned C2)) ∧
    validate_colouring G C1 = Ok true ∧ validate_colouring G C2 = Ok true.
Proof.
  intros Hwf Hlf Hn.
  pose proof (proper_all_different G Hwf Hlf) as Hp.
  pose proof (size_colours_le (seq 0 (length (vertices G)))) as Hd.
  rewrite length_seq in Hd.
  destruct (product_returns G (seq 0 (length (vertices G)))
              (length (vertices G))) as [C1 H1];
    [done|by rewrite length_seq|rewrite length_seq; lia|done..|].
  destruct (custom_returns G (seq 0 (length (vertices G)))
              (length (vertices G))) as [C2 H2];
    [done|by rewrite length_seq|rewrite length_seq; lia|done..|].
  exists C1, C2. split; [|split].
  - intros fuel Hfuel. split.
    + unfold product_brute_force_colouring, product_run in *. cbn zeta in *.
      rewrite product_while_first_round in *.
      by apply first_round_mono with (fuel := length (vertices G)).
    + unfold custom_brute_force_colouring in *. cbn zeta in *.
      rewrite custom_while_first_round in *.
      by apply first_round_mono with (fuel := length (vertices G)).
  - destruct (returned_is_paired _ G C1 (or_introl H1)) as (_ & _ & _ & ?).
    by apply validate_colouring_proper.
  - destruct (returned_is_paired _ G C2 (or_intror H2)) as (_ & _ & _ & ?).
    by apply validate_colouring_proper.
Qed.

(** C3. On a graph whose vertices are pairwise different and whose edges
    join vertices of the graph, a dictionary returned by either search has
    at most [k] distinct colours whenever the graph can be coloured with
    [k] colours at all, so at most as many as the least such [k]. *)
Theorem returned_colouring_minimal fuel G C k :
  well_formed G →
  product_brute_force_colouring fuel G = Some (Returned C) ∨
  custom_brute_force_colouring fuel G = Some (Returned C) →
  colourable G k →
  colours_used C ≤ k.
Proof.
  intros Hwf Hret Hk.
  destruct (colourable_sequence G k Hwf Hk) as (s & Hlen & Hall & Hp).
  pose proof (returned_colours_le fuel G C s Hwf Hret Hlen Hp).
  pose proof (size_colours_bounded s k Hall). lia.
Qed.

(** C4. On such a graph, the dictionaries the two searches return use the
    same number of distinct colours, and that number is the least number
    of colours the graph can be coloured with. *)
Theorem searches_use_equally_many_colours fuel1 fuel2 G C1 C2 :
  well_formed G →
  product_brute_force_colouring fuel1 G = Some (Returned C1) →
  custom_brute_force_colouring fuel2 G = Some (Returned C2) →
  colours_used C1 = colours_used C2 ∧
  chromatic_number G (colours_used C1).
Proof.
  intros Hwf H1 H2.
  destruct (returned_is_paired _ G C1 (or_introl H1)) as (s1 & E1 & Hl1 & Hp1).
  destruct (returned_is_paired _ G C2 (or_intror H2)) as (s2 & E2 & Hl2 & Hp2).
  pose proof (returned_colours_le _ G C1 s2 Hwf (or_introl H1) Hl2) as Hle1.
  pose proof (returned_colours_le _ G C2 s1 Hwf (or_intror H2) Hl1) as Hle2.
  rewrite <-E1 in Hle2. rewrite <-E2 in Hle1.
  specialize (Hle1 Hp2). specialize (Hle2 Hp1).
  rewrite <-(colours_used_paired G s2), <-E2 in Hle1 by done.
  rewrite <-(colours_used_paired G s1), <-E1 in Hle2 by done.
  split; [lia|]. split.
  - rewrite E1. apply colourable_colours_used; [done..|]. by rewrite <-E1.
  - intros j Hj.
    destruct (colourable_sequence G j Hwf Hj) as (s & Hlen & Hall & Hp).
    pose proof (returned_colours_le _ G C1 s Hwf (or_introl H1) Hlen Hp).
    pose proof (size_colours_bounded s j Hall). lia.
Qed.

End Minimality.

Lemma searches_return_within_n_witness :
  ∃ C1 C2,
    (∀ fuel, length (vertices triangle) ≤ fuel →
       product_brute_force_colouring fuel triangle = Some (Returned C1) ∧
       custom_brute_force_colouring fuel triangle = Some (Returned C2)) ∧
    validate_colouring triangle C1 = Ok true ∧
    validate_colouring triangle C2 = Ok true.
Proof.
  apply (searches_return_within_n triangle).
  - split; compute_done.
  - compute_done.
  - simpl. lia.
Defined.

(** C2 as the spec words it fails.  With a loop among the edges no
    colouring is valid: the custom search gives up with [None] once
    [colours] exceeds the number of vertices, and the product search goes
    on for ever.  Without any vertex the same happens, since both searches
    start at one colour. *)
Lemma searches_without_colouring :
  (∀ fuel, 2 ≤ fuel →
     custom_brute_force_colouring fuel loop_graph = Some ReturnedNone) ∧
  (∀ fuel, product_brute_force_colouring fuel loop_graph = None) ∧
  (∀ fuel, 1 ≤ fuel →
     custom_brute_force_colouring fuel null_graph = Some ReturnedNone) ∧
  (∀ fuel, product_brute_force_colouring fuel null_graph = None).
Proof.
  assert (well_formed loop_graph) as Hwf by (split; compute_done).
  assert ((0, 0) ∈ edges loop_graph) as Hloop by left.
  split; [|split; [|split]].
  - intros fuel Hfuel. apply (custom_reports_none_with_loop loop_graph 0);
      [done..|simpl; lia].
  - intros fuel. by apply (product_never_returns_with_loop loop_graph 0).
  - intros [|fuel] Hfuel; [lia|done].
  - intros fuel. by apply product_never_returns_without_vertices.
Qed.

Lemma returned_colouring_minimal_witness :
  colours_used (paired [0; 1; 2] [0; 1; 2]) ≤ 3.
Proof.
  apply (returned_colouring_minimal 3 triangle (paired [0; 1; 2] [0; 1; 2]) 3).
  - split; compute_done.
  - left. vm_compute. reflexivity.
  - exists (paired [0; 1; 2] [0; 1; 2]). split; [|split].
    + compute_done.
    + compute_done.
    + apply validate_colouring_proper. vm_compute. reflexivity.
Defined.

Lemma searches_use_equally_many_colours_witness :
  colours_used (paired [0; 1; 2; 3] [0; 1; 0; 1])
  = colours_used (paired [0; 1; 2; 3] [0; 1; 0; 1]) ∧
  chromatic_number cycle4 (colours_used (paired [0; 1; 2; 3] [0; 1; 0; 1])).
Proof.
  apply (searches_use_equally_many_colours 2 2 cycle4).
  - split; compute_done.
  - vm_compute. reflexivity.
  - vm_compute. reflexivity.
Defined.

(** ** The scenarios of the spec *)

(** No edges: every vertex gets colour 0. *)
Example scenario_no_edges :
  product_brute_force_colouring 1 (mkGraph [4; 5; 6] [])
  = Some (Returned (paired [4; 5; 6] [0; 0; 0])) ∧
  custom_brute_force_colouring 1 (mkGraph [4; 5; 6] [])
  = Some (Returned (paired [4; 5; 6] [0; 0; 0])).
Proof. split; vm_compute; reflexivity. Qed.

(** A triangle needs three colours; two rounds are not enough. *)
Example scenario_triangle :
  product_brute_force_colouring 2 triangle = None ∧
  custom_brute_force_colouring 2 triangle = None ∧
  product_brute_force_colouring 3 triangle
  = Some (Returned (paired [0; 1; 2] [0; 1; 2])) ∧
  custom_brute_force_colouring 3 triangle
  = Some (Returned (paired [0; 1; 2] [0; 1; 2])).
Proof. repeat split; vm_compute; reflexivity. Qed.

(** One edge and one isolated vertex: two colours. *)
Example scenario_edge_and_vertex :
  product_brute_force_colouring 2 path3
  = Some (Returned (paired [7; 8; 9] [0; 1; 0])) ∧
  custom_brute_force_colouring 2 path3
  = Some (Returned (paired [7; 8; 9] [0; 1; 0])) ∧
  product_validated 2 path3 = [(1, [0; 0; 0]); (2, [0; 0; 1]); (2, [0; 1; 0])].
Proof. repeat split; vm_compute; reflexivity. Qed.

(** A cycle of four vertices: two colours, in turn. *)
Example scenario_cycle4 :
  product_brute_force_colouring 2 cycle4
  = Some (Returned (paired [0; 1; 2; 3] [0; 1; 0; 1])) ∧
  custom_brute_force_colouring 2 cycle4
  = Some (Returned (paired [0; 1; 2; 3] [0; 1; 0; 1])) ∧
  colours_used (paired [0; 1; 2; 3] [0; 1; 0; 1]) = 2.
Proof. repeat split; vm_compute; reflexivity. Qed.

(** * Further properties of the code *)

(** ** [validate_colouring] *)

Section Validation.
Context {V : Type} `{Countable V}.
Implicit Types (G : Graph V) (C : gmap V nat) (es : list (V * V)).

Lemma validate_edges_app_proper es1 es2 C :
  Forall (λ e, ∃ c0 c1, C !! e.1 = Some c0 ∧ C !! e.2 = Some c1 ∧ c0 ≠ c1)
    es1 →
  validate_edges (es1 ++ es2) C = validate_edges es2 C.
Proof.
  induction 1 as [|e es1 (c0 & c1 & H0 & H1 & Hne) _ IH]; [done|].
  cbn [app validate_edges]. rewrite H0, H1. by rewrite decide_False.
Qed.

(** X1. When both ends of every edge have a colour, [validate_colouring]
    raises nothing, and it answers [True] exactly when no edge has the
    same colour at both ends. *)
Theorem validate_colouring_decides G C :
  Forall (λ e, is_Some (C !! e.1) ∧ is_Some (C !! e.2)) (edges G) →
  ∃ b, validate_colouring G C = Ok b ∧
       (b = true ↔ Forall (λ e, C !! e.1 ≠ C !! e.2) (edges G)).
Proof.
  unfold validate_colouring.
  induction 1 as [|e es [[c0 H0] [c1 H1]] _ (b & Hb & Hiff)];
    cbn [validate_edges].
  - exists true. split; [done|]. split; [constructor|done].
  - rewrite H0, H1. destruct (decide (c0 = c1)) as [->|Hne].
    + exists false. split; [done|]. split; [done|].
      intros [Hd _]%Forall_cons. congruence.
    + exists b. split; [done|]. rewrite Forall_cons, <-Hiff, H0, H1.
      split; [|tauto]. intros ->. split; [congruence|done].
Qed.

(** X2. The answer is settled by the first edge that is not properly
    coloured, whatever follows it: [False] when both its ends have the same
    colour, a [KeyError] when one of its ends has no colour. *)
Theorem validate_colouring_first_offender G C es1 e es2 :
  edges G = es1 ++ e :: es2 →
  Forall (λ e, ∃ c0 c1, C !! e.1 = Some c0 ∧ C !! e.2 = Some c1 ∧ c0 ≠ c1)
    es1 →
  C !! e.1 = C !! e.2 ∨ C !! e.1 = None ∨ C !! e.2 = None →
  validate_colouring G C
  = match C !! e.1, C !! e.2 with
    | Some _, Some _ => Ok false
    | _, _ => Raise KeyError
    end.
Proof.
  intros Hes Hes1 Hbad. unfold validate_colouring. rewrite Hes.
  rewrite validate_edges_app_proper by done. cbn [validate_edges].
  destruct (C !! e.1) as [c0|], (C !! e.2) as [c1|]; try done.
  destruct Hbad as [[= ->]|[?|?]]; [|done..]. by rewrite decide_True.
Qed.

(** X3. Edges are undirected for the validator: writing any of the edges
    the other way round changes neither the answer nor the error. *)
Theorem validate_colouring_undirected G G' C :
  Forall2 (λ e e', e' = e ∨ e' = (e.2, e.1)) (edges G) (edges G') →
  validate_colouring G' C = validate_colouring G C.
Proof.
  unfold validate_colouring.
  induction 1 as [|e e' es es' Hflip _ IH]; [done|].
  cbn [validate_edges]. rewrite IH.
  destruct Hflip as [->| ->]; [done|]. cbn [fst snd].
  destruct (C !! e.1) as [c0|], (C !! e.2) as [c1|]; try done.
  destruct (decide (c0 = c1)) as [->|Hne].
  - by rewrite decide_True.
  - by rewrite decide_False by congruence.
Qed.

(** X4. Only the pattern of equal colours matters: renaming the colours of
    a dictionary by a function that keeps its colours apart changes
    neither the answer nor the error. *)
Theorem validate_colouring_renaming G C (f : nat → nat) :
  (∀ u v c0 c1, C !! u = Some c0 → C !! v = Some c1 → f c0 = f c1 → c0 = c1) →
  validate_colouring G (f <$> C) = validate_colouring G C.
Proof.
  intros Hinj. unfold validate_colouring.
  induction (edges G) as [|e es IH]; [done|].
  cbn [validate_edges]. rewrite !lookup_fmap, IH.
  destruct (C !! e.1) as [c0|] eqn:H0, (C !! e.2) as [c1|] eqn:H1; try done.
  cbn. destruct (decide (c0 = c1)) as [->|Hne].
  - by rewrite decide_True.
  - rewrite decide_False; [done|]. intros Heq. apply Hne. eauto.
Qed.

End Validation.

Lemma validate_colouring_decides_witness :
  ∃ b, validate_colouring cycle4 (paired [0; 1; 2; 3] [0; 1; 1; 0]) = Ok b ∧
       (b = true ↔
        Forall (λ e, paired [0; 1; 2; 3] [0; 1; 1; 0] !! e.1
                     ≠ paired [0; 1; 2; 3] [0; 1; 1; 0] !! e.2)
          (edges cycle4)).
Proof.
  apply (validate_colouring_decides cycle4 (paired [0; 1; 2; 3] [0; 1; 1; 0])).
  compute_done.
Defined.

Lemma validate_colouring_first_offender_witness :
  validate_colouring (mkGraph [0; 1; 2] [(0, 1); (1, 1); (5, 6)])
    (paired [0; 1; 2] [0; 1; 2])
  = match paired [0; 1; 2] [0; 1; 2] !! 1, paired [0; 1; 2] [0; 1; 2] !! 1 with
    | Some _, Some _ => Ok false
    | _, _ => Raise KeyError
    end.
Proof.
  apply (validate_colouring_first_offender
           (mkGraph [0; 1; 2] [(0, 1); (1, 1); (5, 6)])
           (paired [0; 1; 2] [0; 1; 2]) [(0, 1)] (1, 1) [(5, 6)]).
  - reflexivity.
  - apply validate_edges_true. vm_compute. reflexivity.
  - left. reflexivity.
Defined.

Lemma validate_colouring_undirected_witness :
  validate_colouring (mkGraph [7; 8; 9] [(8, 7); (8, 9)])
    (paired [7; 8; 9] [0; 1; 0])
  = validate_colouring (mkGraph [7; 8; 9] [(7, 8); (8, 9)])
      (paired [7; 8; 9] [0; 1; 0]).
Proof.
  apply (validate_colouring_undirected
           (mkGraph [7; 8; 9] [(7, 8); (8, 9)])
           (mkGraph [7; 8; 9] [(8, 7); (8, 9)])).
  constructor; [right; reflexivity|].
  constructor; [left; reflexivity|]. constructor.
Defined.

Lemma validate_colouring_renaming_witness :
  validate_colouring triangle ((λ c, 2 * c + 5) <$> paired [0; 1; 2] [0; 1; 1])
  = validate_colouring triangle (paired [0; 1; 2] [0; 1; 1]).
Proof.
  apply (validate_colouring_renaming triangle (paired [0; 1; 2] [0; 1; 1])
           (λ c, 2 * c + 5)).
  intros u v c0 c1 _ _. lia.
Defined.

(** ** [colouring_list_to_dict] *)

Section Materializer.
Context {V : Type} `{Countable V}.
Implicit Types (C : gmap V nat) (vs : list V) (s t : list nat).

Lemma paired_read_back s vs :
  NoDup vs → length s = length vs →
  (λ v, paired vs s !! v) <$> vs = Some <$> s.
Proof.
  intros Hnd Hlen. apply (list_eq_same_length _ _ (length vs));
    [by rewrite length_fmap|by rewrite length_fmap|].
  intros i x y Hi. rewrite !list_lookup_fmap.
  destruct (vs !! i) as [v|] eqn:Hv; [|done].
  destruct (s !! i) as [c|] eqn:Hc; [|done]. cbn.
  rewrite (lookup_paired_at _ _ i), Hc by done. congruence.
Qed.

(** X5. With pairwise different vertices and as many colours, the
    dictionary has one entry per vertex, reading it along the vertices
    gives the colour list back, and no other colour list gives the same
    dictionary. *)
Theorem colouring_list_to_dict_round_trip s vs :
  NoDup vs → length s = length vs →
  ∃ C, colouring_list_to_dict s vs = Ok C ∧
       (λ v, C !! v) <$> vs = Some <$> s ∧
       size C = length s ∧
       ∀ t, length t = length vs → colouring_list_to_dict t vs = Ok C → t = s.
Proof.
  intros Hnd Hlen. exists (paired vs s).
  split; [apply colouring_list_to_dict_paired; lia|].
  split; [by apply paired_read_back|]. split.
  - rewrite <-size_dom, dom_paired by lia.
    rewrite Hlen, firstn_all. by apply size_list_to_set.
  - intros t Ht Hdict.
    rewrite colouring_list_to_dict_paired in Hdict by lia.
    injection Hdict as Hdict.
    pose proof (paired_read_back t vs Hnd Ht) as Hrt.
    rewrite Hdict, paired_read_back in Hrt by done.
    symmetry. by apply (inj (fmap Some)).
Qed.

End Materializer.

Lemma colouring_list_to_dict_round_trip_witness :
  ∃ C : gmap nat nat,
    colouring_list_to_dict [0; 1; 0] [7; 8; 9] = Ok C ∧
    (λ v, C !! v) <$> [7; 8; 9] = Some <$> [0; 1; 0] ∧
    size C = length [0; 1; 0] ∧
    ∀ t, length t = length [7; 8; 9] →
         colouring_list_to_dict t [7; 8; 9] = Ok C → t = [0; 1; 0].
Proof.
  apply (colouring_list_to_dict_round_trip [0; 1; 0] [7; 8; 9]).
  - compute_done.
  - reflexivity.
Defined.

(** ** [create_options], [colouring_generator] and
       [check_all_colours_in_colouring_list] *)

Section Enumeration.

#[local] Arguments number_colourings : simpl never.

Lemma number_colourings_seq_1 k : number_colourings (seq 1 k) = fact k.
Proof.
  induction k as [|k IH]; [done|].
  rewrite seq_S, number_colourings_snoc, IH. cbn [fact plus]. lia.
Qed.

Lemma colouring_generator_for_zero options acc index :
  0 ∈ options →
  colouring_generator_for (reverse (seq 0 (length options))) options acc index
  = Raise ZeroDivisionError.
Proof.
  revert acc index.
  induction options as [|b options IH] using rev_ind; intros acc index Hin.
  - by apply elem_of_nil in Hin.
  - rewrite length_app. cbn [length]. rewrite seq_app. cbn [seq plus].
    rewrite !reverse_snoc. cbn [colouring_generator_for].
    rewrite list_lookup_middle by done.
    destruct (decide (b = 0)) as [->|Hb]; [done|].
    rewrite colouring_generator_for_app.
    + apply IH. apply elem_of_app in Hin as [?|Hin]; [done|].
      apply list_elem_of_singleton in Hin. congruence.
    + apply Forall_forall. intros c Hc. rewrite elem_of_reverse in Hc.
      apply elem_of_seq in Hc. lia.
Qed.

Lemma mixed_radix_digits_mod index options :
  Forall (λ b, 0 < b) options →
  mixed_radix_digits (index mod number_colourings options) options
  = mixed_radix_digits index options.
Proof.
  revert index. induction options as [|b options IH] using rev_ind;
    intros index Hpos; [done|].
  apply Forall_app in Hpos as [Hpos Hb]. rewrite Forall_singleton in Hb.
  rewrite number_colourings_snoc, !mixed_radix_digits_snoc.
  rewrite (Nat.mul_comm (number_colourings options) b).
  rewrite Nat.Div0.mod_mul_r. f_equal.
  - rewrite <-(IH (index / b)) by done. f_equal.
    rewrite (Nat.mul_comm b), Nat.div_add by lia.
    rewrite (Nat.div_small (index mod b)); [done|].
    apply Nat.mod_upper_bound. lia.
  - f_equal. rewrite (Nat.mul_comm b), Nat.Div0.mod_add.
    apply Nat.Div0.mod_mod.
Qed.

(** X6. [create_options] returns a list of length [max colours size]: when
    [colours] exceeds [size] the list is just [1 .. colours], longer than
    the graph. *)
Theorem create_options_length k n :
  length (create_options k n) = k `max` n ∧
  (n ≤ k → create_options k n = seq 1 k).
Proof.
  unfold create_options. split.
  - rewrite length_app, length_seq, length_replicate. lia.
  - intros Hnk. rewrite length_seq.
    replace (n - k) with 0 by lia. apply app_nil_r.
Qed.

(** X7. For [colours ≤ size] the number of candidates of a round is
    [colours! * colours ^ (size - colours)]. *)
Theorem number_colourings_create_options k n :
  k ≤ n → number_colourings (create_options k n) = fact k * k ^ (n - k).
Proof.
  intros _. unfold create_options.
  rewrite number_colourings_app, number_colourings_seq_1, length_seq.
  by rewrite number_colourings_replicate.
Qed.

(** X8. [colouring_generator] raises [ZeroDivisionError] exactly when one of
    the options is 0, whatever the index; otherwise it returns one digit
    per option. *)
Theorem colouring_generator_zero_base index options :
  (0 ∈ options →
   colouring_generator index options = Raise ZeroDivisionError) ∧
  (0 ∉ options →
   ∃ s, colouring_generator index options = Ok s ∧
        length s = length options).
Proof.
  split.
  - intros Hin. unfold colouring_generator.
    by rewrite colouring_generator_for_zero.
  - intros Hnin. exists (mixed_radix_digits index options).
    split; [|apply length_mixed_radix_digits].
    apply colouring_generator_digits, Forall_forall. intros b Hb.
    destruct (decide (b = 0)) as [->|]; [done|lia].
Qed.

(** X9. For positive options the indices below the candidate count and the
    sequences whose entries are below the options correspond one to one:
    two such indices give different sequences, and every such sequence is
    generated. *)
Theorem colouring_generator_bijective options :
  Forall (λ b, 0 < b) options →
  (∀ i j, i < number_colourings options → j < number_colourings options →
          colouring_generator i options = colouring_generator j options →
          i = j) ∧
  (∀ s, Forall2 (λ d b, d < b) s options →
        ∃ i, i < number_colourings options ∧
             colouring_generator i options = Ok s).
Proof.
  intros Hpos. split.
  - intros i j Hi Hj. rewrite !colouring_generator_digits by done.
    intros [= Heq].
    rewrite <-(mixed_radix_value_digits i options),
      <-(mixed_radix_value_digits j options) by done.
    by rewrite Heq.
  - intros s Hs. exists (mixed_radix_value options s).
    split; [by apply mixed_radix_value_lt|].
    rewrite colouring_generator_digits by done.
    by rewrite mixed_radix_digits_value.
Qed.

(** X10. An index at or beyond the candidate count wraps around: only the
    index modulo the product of the options matters. *)
Theorem colouring_generator_wraps index options :
  Forall (λ b, 0 < b) options →
  colouring_generator index options
  = colouring_generator (index mod number_colourings options) options.
Proof.
  intros Hpos. rewrite !colouring_generator_digits by done.
  by rewrite mixed_radix_digits_mod.
Qed.

(** X11. On a sequence with entries below [colours], the check succeeds
    exactly when every colour from 0 to [colours - 1] occurs in it. *)
Theorem check_all_colours_bounded k (s : list nat) :
  Forall (λ c, c < k) s →
  check_all_colours_in_colouring_list k s = true ↔ ∀ c, c < k → c ∈ s.
Proof.
  intros Hall. unfold check_all_colours_in_colouring_list.
  rewrite bool_decide_eq_true.
  assert ((list_to_set s : gset nat) ⊆ set_seq 0 k) as Hsub.
  { intros c Hc. apply elem_of_list_to_set in Hc.
    rewrite Forall_forall in Hall. apply elem_of_set_seq.
    specialize (Hall c Hc). simpl in Hall. lia. }
  split.
  - intros Hsize c Hc. apply (elem_of_list_to_set (C:=gset nat)).
    rewrite (set_subseteq_size_eq _ _ Hsub).
    + apply elem_of_set_seq. lia.
    + rewrite size_set_seq. lia.
  - intros Hevery. rewrite <-(size_set_seq (C:=gset nat) 0 k). f_equal.
    apply set_eq. intros c. split; [apply Hsub|].
    intros Hc%elem_of_set_seq. apply elem_of_list_to_set, Hevery. lia.
Qed.

End Enumeration.

Lemma create_options_length_witness :
  length (create_options 5 3) = 5 `max` 3 ∧ create_options 5 3 = seq 1 5.
Proof.
  split.
  - apply (create_options_length 5 3).
  - apply (create_options_length 5 3). lia.
Defined.

Lemma number_colourings_create_options_witness :
  number_colourings (create_options 3 5) = fact 3 * 3 ^ (5 - 3).
Proof. apply (number_colourings_create_options 3 5). lia. Defined.

Lemma colouring_generator_zero_base_witness :
  colouring_generator 4 [2; 0; 3] = Raise ZeroDivisionError ∧
  ∃ s, colouring_generator 4 [2; 1; 3] = Ok s ∧ length s = length [2; 1; 3].
Proof.
  split.
  - apply (colouring_generator_zero_base 4 [2; 0; 3]). compute_done.
  - apply (colouring_generator_zero_base 4 [2; 1; 3]). compute_done.
Defined.

Lemma colouring_generator_bijective_witness :
  (∀ i j, i < number_colourings [1; 2; 3] → j < number_colourings [1; 2; 3] →
          colouring_generator i [1; 2; 3] = colouring_generator j [1; 2; 3] →
          i = j) ∧
  (∀ s, Forall2 (λ d b, d < b) s [1; 2; 3] →
        ∃ i, i < number_colourings [1; 2; 3] ∧
             colouring_generator i [1; 2; 3] = Ok s).
Proof.
  apply (colouring_generator_bijective [1; 2; 3]).
  repeat constructor.
Defined.

Lemma colouring_generator_wraps_witness :
  colouring_generator 11 [1; 2; 3]
  = colouring_generator (11 mod number_colourings [1; 2; 3]) [1; 2; 3].
Proof.
  apply (colouring_generator_wraps 11 [1; 2; 3]). repeat constructor.
Defined.

Lemma check_all_colours_bounded_witness :
  check_all_colours_in_colouring_list 3 [0; 1; 0; 2] = true ↔
  ∀ c, c < 3 → c ∈ [0; 1; 0; 2].
Proof.
  apply (check_all_colours_bounded 3 [0; 1; 0; 2]).
  repeat constructor.
Defined.

(** ** What the searches return, and when they do not *)

Section Outcomes.
Context {V : Type} `{Countable V}.
Implicit Types (G : Graph V) (C : gmap V nat) (s t : list nat).

Lemma custom_round_returned_bounds G k C :
  1 ≤ k → custom_round G k = Some (Returned C) →
  ∃ s, C = paired (vertices G) s ∧ length s = length (vertices G) ∧
       size (list_to_set s : gset nat) = k ∧
       ∀ i c, s !! i = Some c → c ≤ i ∧ c < k.
Proof.
  intros Hk. unfold custom_round.
  destruct (decide (k ≤ length (vertices G))) as [Hkn|]; [|done].
  cbn zeta. rewrite custom_for_first_hit by (by apply create_options_pos).
  intros (s & Hs & Hdict & Hval)%first_hit_returned.
  apply list_elem_of_filter in Hs as [Hsize Hs].
  apply list_elem_of_fmap in Hs as (index & -> & _).
  pose proof (length_mixed_radix_digits index
                (create_options k (length (vertices G)))) as Hlen.
  rewrite length_create_options in Hlen by done.
  rewrite colouring_list_to_dict_paired in Hdict by lia.
  injection Hdict as <-. eexists. split; [done|]. split; [done|].
  split; [done|]. intros i c Hc.
  assert (i < length (vertices G)) as Hi.
  { apply lookup_lt_Some in Hc. lia. }
  pose proof (mixed_radix_digits_lt index
                (create_options k (length (vertices G)))
                (create_options_pos k _ Hk)) as Hlt.
  pose proof (Forall2_lookup_lr _ _ _ _ _ _ Hlt Hc
                (lookup_create_options k _ i Hkn Hi)) as Hb.
  cbn beta in Hb. lia.
Qed.

Lemma first_round_None_within (round : nat → option (outcome V)) fuel colours :
  (∀ k, colours ≤ k < colours + fuel → round k = None) →
  first_round round fuel colours = None.
Proof.
  revert colours. induction fuel as [|fuel IH]; intros colours Hr; [done|].
  cbn [first_round]. rewrite Hr by lia. apply IH. intros k Hk. apply Hr. lia.
Qed.

Lemma colours_fill_range s k :
  Forall (λ c, c < k) s → size (list_to_set s : gset nat) = k →
  (list_to_set s : gset nat) = set_seq 0 k.
Proof.
  intros Hall Hsize. apply set_subseteq_size_eq.
  - intros c Hc. apply elem_of_list_to_set in Hc.
    rewrite Forall_forall in Hall. apply elem_of_set_seq.
    specialize (Hall c Hc). simpl in Hall. lia.
  - rewrite size_set_seq. lia.
Qed.

(** X12. A dictionary returned by either search has exactly the vertices of
    the graph as its keys. *)
Theorem returned_colouring_total fuel G C :
  product_brute_force_colouring fuel G = Some (Returned C) ∨
  custom_brute_force_colouring fuel G = Some (Returned C) →
  dom C = list_to_set (vertices G).
Proof.
  intros (s & -> & Hlen & _)%returned_is_paired.
  rewrite dom_paired by lia. by rewrite Hlen, firstn_all.
Qed.

(** X13. On a graph with pairwise different vertices and edges between its
    vertices, the colours of a returned dictionary are exactly
    [0, 1, ..., d - 1], where [d] is the number of colours it uses: no
    colour number is skipped. *)
Theorem returned_colours_contiguous fuel G C :
  well_formed G →
  product_brute_force_colouring fuel G = Some (Returned C) ∨
  custom_brute_force_colouring fuel G = Some (Returned C) →
  (map_img C : gset nat) = set_seq 0 (colours_used C).
Proof.
  intros Hwf [Hr|Hr].
  - unfold product_brute_force_colouring, product_run in Hr. cbn zeta in Hr.
    rewrite product_while_first_round in Hr.
    apply first_round_Some in Hr as (k & Hk1 & Hk & Hbefore).
    apply product_round_returned in Hk as (t & -> & Hlt & Htop & Hall & Hp).
    unfold colours_used. rewrite map_img_paired by (done || apply Hwf).
    assert (0 < length t) as Hpos.
    { destruct t; [by apply elem_of_nil in Htop|simpl; lia]. }
    pose proof (size_colours_pos t Hpos) as Hd.
    pose proof (size_colours_bounded t k Hall) as Hdk.
    destruct (decide (size (list_to_set t : gset nat) = k)) as [Heq|Hne].
    + rewrite Heq. by apply colours_fill_range.
    + destruct (product_round_hit G t Hwf Hlt Hpos Hp) as [C' Hhit].
      rewrite Hbefore in Hhit by lia. done.
  - unfold custom_brute_force_colouring in Hr. cbn zeta in Hr.
    rewrite custom_while_first_round in Hr.
    apply first_round_Some in Hr as (k & Hk1 & Hk & _).
    apply custom_round_returned_bounds in Hk
      as (t & -> & Hlt & Hsize & Hb); [|lia].
    unfold colours_used. rewrite map_img_paired by (done || apply Hwf).
    rewrite Hsize. apply colours_fill_range; [|done].
    apply Forall_forall. intros c [i Hc]%list_elem_of_lookup.
    by apply Hb in Hc as [_ ?].
Qed.

(** X14. On such a graph neither search ever raises an exception, and the
    product search never returns [None]. *)
Theorem searches_raise_nothing fuel G e :
  well_formed G →
  product_brute_force_colouring fuel G ≠ Some (Raised e) ∧
  custom_brute_force_colouring fuel G ≠ Some (Raised e) ∧
  product_brute_force_colouring fuel G ≠ Some ReturnedNone.
Proof.
  intros Hwf.
  assert (∀ o, product_brute_force_colouring fuel G = Some o →
               ∃ C, o = Returned C) as Hprod.
  { intros o Hr. unfold product_brute_force_colouring, product_run in Hr.
    cbn zeta in Hr. rewrite product_while_first_round in Hr.
    apply first_round_Some in Hr as (k & _ & Hk & _).
    destruct (product_round_well_formed G k Hwf) as [Hn|[C HC]];
      [congruence|].
    exists C. congruence. }
  split; [|split].
  - intros [C HC]%Hprod. done.
  - intros Hr. unfold custom_brute_force_colouring in Hr. cbn zeta in Hr.
    rewrite custom_while_first_round in Hr.
    apply first_round_Some in Hr as (k & Hk1 & Hk & _).
    destruct (decide (k ≤ length (vertices G))) as [Hkn|Hkn].
    + destruct (custom_round_well_formed G k Hwf) as [Hn|[C HC]];
        [lia|done|congruence..].
    + unfold custom_round in Hk. by rewrite decide_False in Hk.
  - intros [C HC]%Hprod. done.
Qed.

(** X15. On such a graph with a loop among its edges, or with no vertex at
    all, the product search never returns, and the custom search runs
    [n] rounds in vain and returns [None] in round [n + 1]. *)
Theorem searches_without_result fuel G :
  well_formed G →
  ¬ (loop_free G ∧ 1 ≤ length (vertices G)) →
  product_brute_force_colouring fuel G = None ∧
  custom_brute_force_colouring fuel G
  = if decide (length (vertices G) < fuel) then Some ReturnedNone else None.
Proof.
  intros Hwf Hno.
  assert (∀ k C, 1 ≤ k → product_round G k ≠ Some (Returned C) ∧
                         custom_round G k ≠ Some (Returned C)) as Hnone.
  { intros k C Hk.
    destruct (decide (loop_free G)) as [Hlf|Hloop].
    - assert (length (vertices G) = 0) as Hn.
      { destruct (decide (length (vertices G) = 0)); [done|].
        exfalso. apply Hno. split; [done|lia]. }
      split.
      + intros (s & _ & Hlen & Htop & _)%product_round_returned.
        rewrite Hn in Hlen. apply nil_length_inv in Hlen as ->.
        by apply elem_of_nil in Htop.
      + unfold custom_round. by rewrite decide_False by lia.
    - apply not_Forall_Exists in Hloop; [|apply _].
      apply Exists_exists in Hloop as ([u v] & He & Huv).
      cbn in Huv. apply dec_stable in Huv as ->.
      split.
      + intros (_ & _ & _ & _ & _ & Hp)%product_round_returned.
        by apply loop_not_proper with (u := v) in Hp.
      + intros (_ & _ & _ & _ & Hp)%custom_round_returned; [|done].
        by apply loop_not_proper with (u := v) in Hp. }
  split.
  - unfold product_brute_force_colouring, product_run. cbn zeta.
    rewrite product_while_first_round. apply first_round_None.
    intros k Hk. destruct (product_round_well_formed G k Hwf) as [?|[C HC]];
      [done|].
    by apply Hnone in HC.
  - unfold custom_brute_force_colouring. cbn zeta.
    rewrite custom_while_first_round.
    assert (∀ k, 1 ≤ k ≤ length (vertices G) → custom_round G k = None)
      as Hrounds.
    { intros k Hk.
      destruct (custom_round_well_formed G k Hwf) as [?|[C HC]]; [lia..|done|].
      apply Hnone in HC; [done|lia]. }
    destruct (decide (length (vertices G) < fuel)) as [Hfuel|Hfuel].
    + apply (first_round_intro _ _ _ (length (vertices G) + 1)); [| |lia].
      * unfold custom_round. by rewrite decide_False by lia.
      * intros k Hk. apply Hrounds. lia.
    + apply first_round_None_within. intros k Hk. apply Hrounds. lia.
Qed.

End Outcomes.

Lemma returned_colouring_total_witness :
  dom (paired [7; 8; 9] [0; 1; 0]) = list_to_set (vertices path3).
Proof.
  apply (returned_colouring_total 2 path3). right. vm_compute. reflexivity.
Defined.

Lemma returned_colours_contiguous_witness :
  (map_img (paired [0; 1; 2; 3] [0; 1; 0; 1]) : gset nat)
  = set_seq 0 (colours_used (paired [0; 1; 2; 3] [0; 1; 0; 1])).
Proof.
  apply (returned_colours_contiguous 2 cycle4).
  - split; compute_done.
  - left. vm_compute. reflexivity.
Defined.

Lemma searches_raise_nothing_witness :
  product_brute_force_colouring 2 triangle ≠ Some (Raised KeyError) ∧
  custom_brute_force_colouring 2 triangle ≠ Some (Raised KeyError) ∧
  product_brute_force_colouring 2 triangle ≠ Some ReturnedNone.
Proof.
  apply (searches_raise_nothing 2 triangle KeyError). split; compute_done.
Defined.

Lemma searches_without_result_witness :
  product_brute_force_colouring 4 (mkGraph [0; 1] [(0, 1); (1, 1)]) = None ∧
  custom_brute_force_colouring 4 (mkGraph [0; 1] [(0, 1); (1, 1)])
  = if decide (length (vertices (mkGraph [0; 1] [(0, 1); (1, 1)])) < 4)
    then Some ReturnedNone else None.
Proof.
  apply (searches_without_result 4 (mkGraph [0; 1] [(0, 1); (1, 1)])).
  - split; compute_done.
  - intros [Hlf _]. revert Hlf. compute_done.
Defined.

(** ** What the product search validates *)

Section ProductLog.
Context {V : Type} `{Countable V}.
Implicit Types (G : Graph V) (C : gmap V nat) (vs : list V) (s : list nat).

Lemma NoDup_product pool r : NoDup pool → NoDup (product pool r).
Proof.
  intros Hpool. induction r as [|r IH]; cbn [product].
  - apply NoDup_singleton.
  - apply NoDup_bind; [| |done].
    + intros p q s _ _ (s1 & -> & _)%list_elem_of_fmap
        (s2 & [= -> _] & _)%list_elem_of_fmap. done.
    + intros p _. apply NoDup_fmap_2; [|done]. by intros s1 s2 [= ->].
Qed.

Lemma product_for_log_NoDup G vs colours cands :
  NoDup cands → NoDup (product_for G vs colours cands).1.
Proof.
  induction 1 as [|s cands Hnin _ IH]; cbn [product_for]; [constructor|].
  destruct (decide (colours - 1 ∈ s)); [|done].
  destruct (colouring_list_to_dict s vs) as [C|]; cbn [fst];
    [|apply NoDup_singleton].
  destruct (validate_colouring G C) as [[]|]; cbn [fst];
    try apply NoDup_singleton.
  apply NoDup_cons. split; [|done].
  by intros [? _]%product_for_log.
Qed.

(** When the loop runs to its end, every candidate with the top colour was
    converted, validated and rejected. *)
Lemma product_for_log_complete G vs colours cands s :
  (product_for G vs colours cands).2 = None →
  s ∈ cands → colours - 1 ∈ s →
  s ∈ (product_for G vs colours cands).1 ∧
  ∃ C, colouring_list_to_dict s vs = Ok C ∧ validate_colouring G C = Ok false.
Proof.
  induction cands as [|s' cands IH]; cbn [product_for].
  - by intros _ ?%elem_of_nil.
  - destruct (decide (colours - 1 ∈ s')) as [Hin|Hnin].
    + destruct (colouring_list_to_dict s' vs) as [C|] eqn:Hd; [|done].
      destruct (validate_colouring G C) as [[]|] eqn:Hv; [done| |done].
      cbn [fst snd]. intros Hnone [->|Hs]%elem_of_cons Htop.
      * split; [left|]. eauto.
      * destruct (IH Hnone Hs Htop) as [? ?]. split; [by right|done].
    + intros Hnone [->|Hs]%elem_of_cons Htop; [done|]. by apply IH.
Qed.

Lemma product_while_log_spec fuel G colours k s :
  (k, s) ∈ (product_while fuel G (vertices G) (length (vertices G))
              colours).1 →
  colours ≤ k < colours + fuel ∧
  s ∈ product (seq 0 k) (length (vertices G)) ∧ k - 1 ∈ s.
Proof.
  revert colours. induction fuel as [|fuel IH]; intros colours;
    cbn [product_while].
  { by intros ?%elem_of_nil. }
  assert ((k, s) ∈ (colours,.) <$>
            (product_for G (vertices G) colours
               (product (seq 0 colours) (length (vertices G)))).1 →
          colours ≤ k < colours + S fuel ∧
          s ∈ product (seq 0 k) (length (vertices G)) ∧ k - 1 ∈ s) as Hhere.
  { intros (s' & [= -> ->] & Hs')%list_elem_of_fmap.
    apply product_for_log in Hs' as [Hs' Htop]. split; [lia|done]. }
  destruct (product_for _ _ _ _).2; cbn [fst]; [done|].
  intros [Hin|Hin]%elem_of_app; [auto|].
  apply IH in Hin. intuition lia.
Qed.

Lemma product_while_log_NoDup fuel G colours :
  NoDup (product_while fuel G (vertices G) (length (vertices G))
           colours).1.*2.
Proof.
  revert colours. induction fuel as [|fuel IH]; intros colours;
    cbn [product_while]; [constructor|].
  assert (NoDup ((colours,.) <$>
            (product_for G (vertices G) colours
               (product (seq 0 colours) (length (vertices G)))).1).*2)
    as Hhere.
  { rewrite <-list_fmap_compose, list_fmap_id.
    apply product_for_log_NoDup, NoDup_product, NoDup_seq. }
  destruct (product_for _ _ _ _).2 eqn:Hres; cbn [fst]; [done|].
  rewrite fmap_app. apply NoDup_app. split; [done|]. split; [|apply IH].
  intros s (p1 & -> & Hp1)%list_elem_of_fmap (p2 & Heq & Hp2)%list_elem_of_fmap.
  apply list_elem_of_fmap in Hp1 as (s1 & -> & Hs1). cbn in Heq. subst s1.
  apply product_for_log in Hs1 as [Hs1 _].
  apply elem_of_product in Hs1 as [_ Hall].
  destruct p2 as [k s2]. apply product_while_log_spec in Hp2 as (Hk & _ & Htop).
  cbn in Htop. rewrite Forall_forall in Hall.
  apply Hall, elem_of_seq in Htop. lia.
Qed.

Lemma product_while_log_complete fuel G colours k s :
  (product_while fuel G (vertices G) (length (vertices G)) colours).2 = None →
  colours ≤ k < colours + fuel →
  s ∈ product (seq 0 k) (length (vertices G)) → k - 1 ∈ s →
  (k, s) ∈ (product_while fuel G (vertices G) (length (vertices G))
              colours).1 ∧
  ∃ C, colouring_list_to_dict s (vertices G) = Ok C ∧
       validate_colouring G C = Ok false.
Proof.
  revert colours. induction fuel as [|fuel IH]; intros colours; [lia|].
  cbn [product_while].
  destruct (product_for G (vertices G) colours
              (product (seq 0 colours) (length (vertices G)))).2 eqn:Hres;
    [done|].
  cbn [fst snd]. intros Hnone Hk Hs Htop.
  destruct (decide (k = colours)) as [->|Hne].
  - destruct (product_for_log_complete _ _ _ _ s Hres Hs Htop) as [Hin Hrej].
    split; [|done]. apply elem_of_app. left.
    apply list_elem_of_fmap. eauto.
  - destruct (IH (colours + 1) Hnone) as [Hin Hrej]; [lia|done..|].
    split; [|done]. apply elem_of_app. by right.
Qed.

(** X16. The product search validates no colour sequence twice, neither
    within a round nor in two different rounds. *)
Theorem product_validates_nothing_twice fuel G :
  NoDup (product_validated fuel G).*2.
Proof. apply product_while_log_NoDup. Qed.

(** X17. Skipping the sequences without the top colour loses nothing: when
    the product search is still running after [fuel] rounds, every colour
    sequence for the vertices with colours below [fuel] has been converted
    and validated in some round, and was rejected. *)
Theorem product_pruning_loses_nothing fuel G s :
  product_brute_force_colouring fuel G = None →
  length s = length (vertices G) → 0 < length s →
  Forall (λ c, c < fuel) s →
  (∃ k, k ≤ fuel ∧ (k, s) ∈ product_validated fuel G) ∧
  ∃ C, colouring_list_to_dict s (vertices G) = Ok C ∧
       validate_colouring G C = Ok false.
Proof.
  intros Hnone Hlen Hpos Hall.
  assert (s ≠ []) as Hne by (destruct s; [simpl in Hpos; lia|done]).
  pose proof (max_list_elem_of s Hne) as Hmax.
  assert (max_list s < fuel) as Hlt.
  { rewrite Forall_forall in Hall. by apply Hall. }
  destruct (product_while_log_complete fuel G 1 (S (max_list s)) s)
    as [Hin Hrej]; [done|lia| |by rewrite Nat.sub_succ, Nat.sub_0_r|].
  - apply elem_of_product. split; [done|]. apply Forall_forall.
    intros c Hc. apply elem_of_seq.
    pose proof (max_list_elem_of_le c s Hc). lia.
  - split; [|done]. exists (S (max_list s)). split; [lia|done].
Qed.

End ProductLog.

Lemma product_pruning_loses_nothing_witness :
  (∃ k, k ≤ 2 ∧ (k, [0; 1; 0]) ∈ product_validated 2 triangle) ∧
  ∃ C, colouring_list_to_dict [0; 1; 0] (vertices triangle) = Ok C ∧
       validate_colouring triangle C = Ok false.
Proof.
  apply (product_pruning_loses_nothing 2 triangle [0; 1; 0]).
  - vm_compute. reflexivity.
  - reflexivity.
  - simpl. lia.
  - repeat constructor.
Defined.

(** ** The first round *)

Section FirstRound.
Context {V : Type} `{Countable V}.
Implicit Types (G : Graph V) (C : gmap V nat) (vs : list V).

Lemma product_one_colour n : product (seq 0 1) n = [replicate n 0].
Proof.
  change (seq 0 1) with [0].
  induction n as [|n IH]; [done|]. cbn [product]. by rewrite IH.
Qed.

Lemma create_options_one_colour n : 1 ≤ n → create_options 1 n = replicate n 1.
Proof.
  intros Hn. unfold create_options. cbn [seq length app].
  destruct n as [|n]; [lia|]. cbn [replicate]. do 2 f_equal. lia.
Qed.

Lemma mixed_radix_digits_one_colour n :
  mixed_radix_digits 0 (replicate n 1) = replicate n 0.
Proof.
  apply (list_eq_same_length _ _ n);
    [by rewrite length_replicate
    |by rewrite length_mixed_radix_digits, length_replicate|].
  intros i d d' Hi Hd Hd'.
  apply lookup_replicate in Hd' as [-> _].
  pose proof (mixed_radix_digits_lt 0 (replicate n 1)) as Hlt.
  assert (replicate n 1 !! i = Some 1) as Hb by (by apply lookup_replicate_2).
  pose proof (Forall2_lookup_lr _ _ _ _ _ _
                (Hlt (Forall_replicate (λ b, 0 < b) n 1 Nat.lt_0_1)) Hd Hb)
    as Hd1.
  cbn beta in Hd1. lia.
Qed.

Lemma colours_of_all_zero n :
  1 ≤ n → size (list_to_set (replicate n 0) : gset nat) = 1.
Proof.
  intros Hn. rewrite <-(size_singleton (C:=gset nat) 0). f_equal.
  apply set_eq. intros c.
  rewrite elem_of_list_to_set, elem_of_replicate, elem_of_singleton. lia.
Qed.

(** With one colour both searches try the all-zero sequence and nothing
    else. *)
Lemma product_round_one G :
  1 ≤ length (vertices G) →
  product_round G 1
  = try_candidate G (vertices G) (replicate (length (vertices G)) 0).
Proof.
  intros Hn. unfold product_round. rewrite product_one_colour.
  cbn [product_for]. rewrite decide_True.
  - unfold try_candidate.
    destruct (colouring_list_to_dict _ _) as [C|]; [|done].
    by destruct (validate_colouring G C) as [[]|].
  - apply elem_of_replicate. lia.
Qed.

Lemma custom_round_one G :
  1 ≤ length (vertices G) →
  custom_round G 1
  = try_candidate G (vertices G) (replicate (length (vertices G)) 0).
Proof.
  intros Hn. unfold custom_round. rewrite decide_True by done. cbn zeta.
  rewrite create_options_one_colour by done.
  rewrite number_colourings_replicate, Nat.pow_1_l. cbn [seq custom_for].
  rewrite colouring_generator_digits by (apply Forall_replicate; lia).
  rewrite mixed_radix_digits_one_colour.
  unfold check_all_colours_in_colouring_list.
  rewrite bool_decide_eq_true_2 by (by apply colours_of_all_zero).
  unfold try_candidate.
  destruct (colouring_list_to_dict _ _) as [C|]; [|done].
  by destruct (validate_colouring G C) as [[]|].
Qed.

Lemma searches_end_in_round_one fuel G o :
  1 ≤ length (vertices G) → 1 ≤ fuel →
  try_candidate G (vertices G) (replicate (length (vertices G)) 0) = Some o →
  product_brute_force_colouring fuel G = Some o ∧
  custom_brute_force_colouring fuel G = Some o.
Proof.
  intros Hn Hfuel Htry. destruct fuel as [|fuel]; [lia|]. split.
  - unfold product_brute_force_colouring, product_run. cbn zeta.
    rewrite product_while_first_round. cbn [first_round].
    by rewrite product_round_one, Htry.
  - unfold custom_brute_force_colouring. cbn zeta.
    rewrite custom_while_first_round. cbn [first_round].
    by rewrite custom_round_one, Htry.
Qed.

Lemma lookup_paired_replicate vs (c : nat) v :
  paired vs (replicate (length vs) c) !! v
  = if decide (v ∈ vs) then Some c else None.
Proof.
  pose proof (dom_paired vs (replicate (length vs) c)) as Hdom.
  rewrite length_replicate, firstn_all in Hdom. specialize (Hdom (le_n _)).
  destruct (decide (v ∈ vs)) as [Hin|Hnin].
  - assert (v ∈ dom (paired vs (replicate (length vs) c))) as Hd.
    { by rewrite Hdom, elem_of_list_to_set. }
    apply elem_of_dom in Hd as [x Hx]. rewrite Hx. f_equal.
    apply elem_of_list_to_map_2 in Hx. rewrite elem_of_reverse in Hx.
    apply elem_of_zip_r, elem_of_replicate in Hx. tauto.
  - apply not_elem_of_dom. by rewrite Hdom, elem_of_list_to_set.
Qed.

(** X18. On a graph with vertices but no edge both searches return, in
    their first round, the dictionary that gives every vertex colour 0. *)
Theorem edgeless_graph_all_zero fuel G :
  edges G = [] → 1 ≤ length (vertices G) → 1 ≤ fuel →
  ∃ C, product_brute_force_colouring fuel G = Some (Returned C) ∧
       custom_brute_force_colouring fuel G = Some (Returned C) ∧
       dom C = list_to_set (vertices G) ∧
       ∀ v, v ∈ vertices G → C !! v = Some 0.
Proof.
  intros He Hn Hfuel.
  exists (paired (vertices G) (replicate (length (vertices G)) 0)).
  destruct (searches_end_in_round_one fuel G
    (Returned (paired (vertices G) (replicate (length (vertices G)) 0))))
    as [Hp Hc]; [done..| |].
  { unfold try_candidate.
    rewrite colouring_list_to_dict_paired by (by rewrite length_replicate).
    unfold validate_colouring. by rewrite He. }
  split; [done|]. split; [done|]. split.
  - rewrite dom_paired by (by rewrite length_replicate).
    by rewrite length_replicate, firstn_all.
  - intros v Hv. by rewrite lookup_paired_replicate, decide_True.
Qed.

(** X19. When the first edge listed has an end that is not a vertex of the
    graph, both searches raise [KeyError] in their first round. *)
Theorem first_edge_outside_raises fuel G e es :
  edges G = e :: es → e.1 ∉ vertices G ∨ e.2 ∉ vertices G →
  1 ≤ length (vertices G) → 1 ≤ fuel →
  product_brute_force_colouring fuel G = Some (Raised KeyError) ∧
  custom_brute_force_colouring fuel G = Some (Raised KeyError).
Proof.
  intros He Hout Hn Hfuel. apply searches_end_in_round_one; [done..|].
  unfold try_candidate.
  rewrite colouring_list_to_dict_paired by (by rewrite length_replicate).
  unfold validate_colouring. rewrite He. cbn [validate_edges].
  rewrite !lookup_paired_replicate.
  destruct (decide (e.1 ∈ vertices G)); [|done].
  destruct (decide (e.2 ∈ vertices G)); [|done]. tauto.
Qed.

End FirstRound.

Lemma edgeless_graph_all_zero_witness :
  ∃ C, product_brute_force_colouring 1 (mkGraph [4; 5; 6] []) = Some (Returned C) ∧
       custom_brute_force_colouring 1 (mkGraph [4; 5; 6] []) = Some (Returned C) ∧
       dom C = list_to_set (vertices (mkGraph [4; 5; 6] [])) ∧
       ∀ v, v ∈ vertices (mkGraph [4; 5; 6] []) → C !! v = Some 0.
Proof.
  apply (edgeless_graph_all_zero 1 (mkGraph [4; 5; 6] []));
    [reflexivity|simpl; lia|lia].
Defined.

Lemma first_edge_outside_raises_witness :
  product_brute_force_colouring 3 (mkGraph [0; 1] [(0, 5); (0, 1)])
  = Some (Raised KeyError) ∧
  custom_brute_force_colouring 3 (mkGraph [0; 1] [(0, 5); (0, 1)])
  = Some (Raised KeyError).
Proof.
  apply (first_edge_outside_raises 3 (mkGraph [0; 1] [(0, 5); (0, 1)])
           (0, 5) [(0, 1)]).
  - reflexivity.
  - right. compute_done.
  - simpl. lia.
  - lia.
Defined.

(** ** The order of the candidates *)

Section Lexicographic.
Implicit Types (s t u l : list nat).

#[local] Arguments number_colourings : simpl never.

Lemma lex_lt_irrefl s : ¬ lex_lt s s.
Proof.
  induction s as [|x s IH]; simpl; [tauto|]. intros [?|[_ ?]]; [lia|tauto].
Qed.

Lemma lex_lt_trans s t u : lex_lt s t → lex_lt t u → lex_lt s u.
Proof.
  revert t u. induction s as [|x s IH]; intros [|y t] [|z u]; cbn [lex_lt];
    try done.
  intros [?|[-> Hst]] [?|[-> Htu]]; [left; lia..|].
  right. split; [done|]. by eapply IH.
Qed.

Lemma lex_le_trans s t u :
  s = t ∨ lex_lt s t → t = u ∨ lex_lt t u → s = u ∨ lex_lt s u.
Proof.
  intros [->|Hst] [->|Htu]; [by left|by right..|].
  right. by eapply lex_lt_trans.
Qed.

Lemma lex_le_antisym s t : s = t ∨ lex_lt s t → t = s ∨ lex_lt t s → s = t.
Proof.
  intros [->|Hst] Hts; [done|]. destruct Hts as [->|Hts]; [done|].
  destruct (lex_lt_irrefl s). by eapply lex_lt_trans.
Qed.

(** Two sequences of one length of which the first is the smaller wherever
    they first differ. *)
Lemma lex_first_difference s t :
  length s = length t →
  (∀ i x y, take i s = take i t → s !! i = Some x → t !! i = Some y → x ≤ y) →
  s = t ∨ lex_lt s t.
Proof.
  revert t. induction s as [|x s IH]; intros [|y t] Hlen Hdiff; try done.
  { by left. }
  pose proof (Hdiff 0 x y eq_refl eq_refl eq_refl) as Hxy.
  destruct (decide (x = y)) as [->|Hne]; [|right; left; lia].
  destruct (IH t) as [->|Hlt]; [by injection Hlen| |by left|].
  - intros i x' y' Htake Hx Hy. apply (Hdiff (S i)); [|done..].
    cbn [take]. by rewrite Htake.
  - right. right. done.
Qed.

(** A smaller number has the smaller digit sequence. *)
Lemma mixed_radix_value_lex options s t :
  Forall2 (λ d b, d < b) s options → Forall2 (λ d b, d < b) t options →
  mixed_radix_value options s < mixed_radix_value options t →
  lex_lt s t.
Proof.
  intros Hs. revert t.
  induction Hs as [|x b s options Hx Hs IH]; intros t Ht.
  - apply Forall2_nil_inv_r in Ht as ->. cbn. lia.
  - apply Forall2_cons_inv_r in Ht as (y & t' & Hy & Ht' & ->).
    cbn [mixed_radix_value lex_lt]. intros Hlt.
    pose proof (mixed_radix_value_lt _ _ Hs).
    pose proof (mixed_radix_value_lt _ _ Ht').
    destruct (decide (x < y)) as [|Hge]; [by left|]. right.
    assert (x = y) as -> by nia. split; [done|]. apply IH; [done|lia].
Qed.

Lemma mixed_radix_digits_lex options i j :
  Forall (λ b, 0 < b) options → i < j → j < number_colourings options →
  lex_lt (mixed_radix_digits i options) (mixed_radix_digits j options).
Proof.
  intros Hpos Hij Hj.
  apply (mixed_radix_value_lex options); [by apply mixed_radix_digits_lt..|].
  rewrite !mixed_radix_value_digits by (done || lia). done.
Qed.

Lemma StronglySorted_fmap_seq {A} (R : relation A) (f : nat → A) a n :
  (∀ i j, a ≤ i → i < j → j < a + n → R (f i) (f j)) →
  StronglySorted R (f <$> seq a n).
Proof.
  revert a. induction n as [|n IH]; intros a Hmono; cbn [seq fmap list_fmap].
  - constructor.
  - constructor.
    + apply IH. intros i j Hi Hij Hj. apply Hmono; lia.
    + apply Forall_fmap, Forall_seq. intros j Hj. apply Hmono; lia.
Qed.

Lemma StronglySorted_filter {A} (R : relation A) (P : A → Prop)
    `{!∀ x, Decision (P x)} (l : list A) :
  StronglySorted R l → StronglySorted R (filter P l).
Proof.
  induction 1 as [|x l _ IH Hall]; [constructor|].
  rewrite filter_cons. destruct (decide (P x)); [|done].
  constructor; [done|]. apply Forall_forall.
  intros y [_ Hy]%list_elem_of_filter. rewrite Forall_forall in Hall. auto.
Qed.

Lemma StronglySorted_prepend pool (cands : list (list nat)) :
  StronglySorted lt pool → StronglySorted lex_lt cands →
  StronglySorted lex_lt (pool ≫= λ p, cons p <$> cands).
Proof.
  intros Hpool Hcands.
  induction Hpool as [|p pool _ IHpool Hp]; [constructor|].
  rewrite bind_cons. apply StronglySorted_app_2; [| |done].
  - intros s t (s' & -> & _)%list_elem_of_fmap
      (q & (t' & -> & _)%list_elem_of_fmap & Hq)%list_elem_of_bind.
    rewrite Forall_forall in Hp. cbn [lex_lt]. left. by apply Hp.
  - apply (StronglySorted_fmap _ lex_lt lex_lt); [|done].
    intros s t Hst. cbn [lex_lt]. by right.
Qed.

Lemma StronglySorted_product pool r :
  StronglySorted lt pool → StronglySorted lex_lt (product pool r).
Proof.
  intros Hpool. induction r as [|r IH]; cbn [product].
  { repeat constructor. }
  by apply StronglySorted_prepend.
Qed.

(** *** First appearances *)

Lemma filter_keeps_all (P : nat → Prop) `{!∀ x, Decision (P x)} l :
  (∀ x, x ∈ l → P x) → filter P l = l.
Proof.
  induction l as [|x l IH]; intros HP; [done|].
  rewrite filter_cons, decide_True by (apply HP; left).
  f_equal. apply IH. intros y Hy. apply HP. by right.
Qed.

Lemma firsts_app s t :
  firsts (s ++ t) = firsts s ++ filter (λ x, x ∉ s) (firsts t).
Proof.
  induction s as [|c s IH]; cbn [app firsts].
  - symmetry. apply filter_keeps_all. intros x _. apply not_elem_of_nil.
  - rewrite IH, filter_app, list_filter_filter. f_equal. f_equal.
    apply list_filter_iff. intros x. rewrite not_elem_of_cons. tauto.
Qed.

Lemma pos_app_l l1 l2 x : x ∈ l1 → pos (l1 ++ l2) x = pos l1 x.
Proof.
  induction l1 as [|y l1 IH]; [by intros ?%elem_of_nil|].
  intros Hin. cbn [app pos]. destruct (decide (x = y)); [done|].
  apply elem_of_cons in Hin as [?|Hin]; [done|]. by rewrite IH.
Qed.

Lemma pos_app_r l1 l2 x : x ∉ l1 → pos (l1 ++ l2) x = length l1 + pos l2 x.
Proof.
  induction l1 as [|y l1 IH]; [done|].
  intros [Hne Hnin]%not_elem_of_cons. cbn [app pos length].
  rewrite decide_False by done. by rewrite IH.
Qed.

(** A colour that first appears at position [i] gets as its new colour
    the number of distinct colours before [i], and the colours before it
    are those that got a smaller new colour. *)
Lemma firsts_split s i y :
  s !! i = Some y → y ∉ take i s →
  ∃ rest, firsts s = firsts (take i s) ++ y :: rest.
Proof.
  intros Hi Hnin.
  pose proof (f_equal firsts (take_drop_middle s i y Hi)) as HF.
  rewrite firsts_app in HF. cbn [firsts] in HF.
  rewrite filter_cons, decide_True in HF by done. eauto.
Qed.

Lemma lookup_take_elem_of s i x : x ∈ take i s ↔ ∃ j, j < i ∧ s !! j = Some x.
Proof.
  rewrite list_elem_of_lookup. split.
  - intros [j Hj]. apply lookup_take_Some in Hj as [? ?]. eauto.
  - intros (j & Hj & Hx). exists j. by rewrite lookup_take_lt.
Qed.

(** Where the relabelled sequence agrees with the sequence up to [i], the
    small colours [0 .. x-1] have all appeared before a colour that is new
    at [i] and is relabelled [x]. *)
Lemma canon_new_colour s i y m :
  (∀ j z, j < i → s !! j = Some z → pos (firsts s) z = z) →
  s !! i = Some y → y ∉ take i s → m < pos (firsts s) y →
  m ∈ take i s.
Proof.
  intros Hsame Hi Hnin Hm.
  destruct (firsts_split s i y Hi Hnin) as [rest HF].
  assert (y ∉ firsts (take i s)) as Hnin' by (by rewrite elem_of_firsts).
  rewrite HF, pos_app_r in Hm by done. cbn [pos] in Hm.
  rewrite decide_True, Nat.add_0_r in Hm by done.
  destruct (lookup_lt_is_Some_2 _ _ Hm) as [z Hz].
  assert (z ∈ take i s) as Hzin.
  { apply elem_of_firsts. by eapply list_elem_of_lookup_2. }
  assert (pos (firsts s) z = m) as Hpz.
  { apply pos_lookup; [apply NoDup_firsts|].
    rewrite HF. by apply lookup_app_l_Some. }
  apply lookup_take_elem_of in Hzin as (j & Hj & Hsj).
  rewrite (Hsame j z Hj Hsj) in Hpz. by subst z; apply lookup_take_elem_of; eauto.
Qed.

(** Relabelling by first appearance never makes a sequence larger. *)
Lemma canon_lex s : canon s = s ∨ lex_lt (canon s) s.
Proof.
  apply lex_first_difference; [apply length_canon|].
  intros i x y Htake Hx Hy.
  rewrite (lookup_canon _ _ y) in Hx by done. injection Hx as <-.
  assert (∀ j z, j < i → s !! j = Some z → pos (firsts s) z = z) as Hsame.
  { intros j z Hj Hz.
    assert (take i (canon s) !! j = take i s !! j) as Heq by by rewrite Htake.
    rewrite !lookup_take_lt in Heq by done.
    rewrite (lookup_canon _ _ z), Hz in Heq by done. by injection Heq. }
  destruct (decide (y ∈ take i s)) as [Hin|Hnin].
  - apply lookup_take_elem_of in Hin as (j & Hj & Hsj).
    by rewrite (Hsame j y Hj Hsj).
  - destruct (decide (pos (firsts s) y ≤ y)) as [|Hgt]; [done|].
    exfalso. apply Hnin. apply (canon_new_colour s i y y); [done..|lia].
Qed.

(** In a sequence that relabelling leaves alone, colour [c + 1] appears
    only after colour [c]. *)
Lemma canon_fixed_growth s i c :
  canon s = s → s !! i = Some (S c) → ∃ j, j < i ∧ s !! j = Some c.
Proof.
  intros Hfix. revert c.
  induction (lt_wf i) as [i _ IH]. intros c Hi.
  assert (∀ j z, s !! j = Some z → pos (firsts s) z = z) as Hsame.
  { intros j z Hz. pose proof (lookup_canon s j z Hz) as Hc.
    rewrite Hfix, Hz in Hc. by injection Hc. }
  destruct (decide (S c ∈ take i s)) as [Hin|Hnin].
  - apply lookup_take_elem_of in Hin as (j & Hj & Hsj).
    destruct (IH j Hj c Hsj) as (l & Hl & Hsl). exists l. split; [lia|done].
  - apply lookup_take_elem_of.
    apply (canon_new_colour s i (S c) c); [eauto|done..|].
    rewrite (Hsame i (S c) Hi). lia.
Qed.

End Lexicographic.

(** ** Which colouring is returned *)

Section LeastColouring.
Context {V : Type} `{Countable V}.
Implicit Types (G : Graph V) (C : gmap V nat) (s t : list nat).

#[local] Arguments number_colourings : simpl never.

(** From candidates in increasing order the first proper one is taken. *)
Lemma first_hit_least G cands C :
  well_formed G →
  Forall (λ s, length s = length (vertices G)) cands →
  StronglySorted lex_lt cands →
  first_hit G (vertices G) cands = Some (Returned C) →
  ∃ s, s ∈ cands ∧ C = paired (vertices G) s ∧
       length s = length (vertices G) ∧
       ∀ t, t ∈ cands → proper G (paired (vertices G) t) →
            s = t ∨ lex_lt s t.
Proof.
  intros Hwf Hlen Hsorted. revert Hlen.
  induction Hsorted as [|s cands _ IH Hall]; intros Hlen; [done|].
  apply Forall_cons in Hlen as [Hs Hlen]. cbn [first_hit].
  destruct (try_candidate_well_formed G s Hwf Hs) as [[Hp ->]|[Hp ->]].
  - intros [= <-]. exists s. split; [left|]. split; [done|]. split; [done|].
    intros t [->|Ht]%elem_of_cons _; [by left|].
    right. rewrite Forall_forall in Hall. by apply Hall.
  - intros (s' & Hs' & -> & Hl' & Hleast)%IH; [|done].
    exists s'. split; [by right|]. split; [done|]. split; [done|].
    intros t [->|Ht]%elem_of_cons Hpt; [done|]. by apply Hleast.
Qed.

Lemma product_round_least G k C :
  well_formed G → product_round G k = Some (Returned C) →
  ∃ s, C = paired (vertices G) s ∧ length s = length (vertices G) ∧
       ∀ t, length t = length (vertices G) → Forall (λ c, c < k) t →
            k - 1 ∈ t → proper G (paired (vertices G) t) →
            s = t ∨ lex_lt s t.
Proof.
  intros Hwf. unfold product_round. rewrite product_for_first_hit.
  intros (s & _ & -> & Hls & Hleast)%first_hit_least; [|done| |].
  - exists s. split; [done|]. split; [done|]. intros t Hlen Hall Htop Hp.
    apply Hleast; [|done]. apply list_elem_of_filter. split; [done|].
    apply elem_of_product. split; [done|].
    eapply Forall_impl; [exact Hall|]. intros c Hc. cbn beta in Hc.
    apply elem_of_seq. lia.
  - apply Forall_forall. intros t [_ Ht]%list_elem_of_filter.
    by apply elem_of_product in Ht as [? _].
  - apply StronglySorted_filter, StronglySorted_product.
    rewrite <-(list_fmap_id (seq 0 k)). apply StronglySorted_fmap_seq.
    intros i j _ Hij _. unfold id. lia.
Qed.

Lemma custom_round_least G k C :
  well_formed G → 1 ≤ k → custom_round G k = Some (Returned C) →
  ∃ s, C = paired (vertices G) s ∧ length s = length (vertices G) ∧
       ∀ t, length t = length (vertices G) →
            (∀ i c, t !! i = Some c → c ≤ i ∧ c < k) →
            size (list_to_set t : gset nat) = k →
            proper G (paired (vertices G) t) →
            s = t ∨ lex_lt s t.
Proof.
  intros Hwf Hk. unfold custom_round.
  destruct (decide (k ≤ length (vertices G))) as [Hkn|]; [|done].
  cbn zeta. rewrite custom_for_first_hit by (by apply create_options_pos).
  set (options := create_options k (length (vertices G))).
  assert (Forall (λ b, 0 < b) options) as Hpos by by apply create_options_pos.
  intros (s & _ & -> & Hls & Hleast)%first_hit_least; [|done| |].
  - exists s. split; [done|]. split; [done|]. intros t Hlen Hb Hsize Hp.
    apply Hleast; [|done]. apply list_elem_of_filter. split; [done|].
    assert (Forall2 (λ c b, c < b) t options) as Hdigits.
    { apply Forall2_same_length_lookup. split.
      - unfold options. by rewrite length_create_options.
      - intros i c b Hc Hbi.
        assert (i < length (vertices G)) as Hi.
        { apply lookup_lt_Some in Hc. lia. }
        unfold options in Hbi. rewrite lookup_create_options in Hbi by done.
        injection Hbi as <-. apply Hb in Hc. lia. }
    apply list_elem_of_fmap. exists (mixed_radix_value options t).
    split; [by rewrite mixed_radix_digits_value|].
    apply elem_of_seq. pose proof (mixed_radix_value_lt _ _ Hdigits). lia.
  - apply Forall_forall. intros t [_ Ht]%list_elem_of_filter.
    apply list_elem_of_fmap in Ht as (index & -> & _).
    rewrite length_mixed_radix_digits. by apply length_create_options.
  - apply StronglySorted_filter, StronglySorted_fmap_seq.
    intros i j _ Hij Hj. by apply mixed_radix_digits_lex.
Qed.

(** The round in which a search returns is the number of colours of what
    it returns. *)
Lemma product_returned_round fuel G C :
  well_formed G → product_brute_force_colouring fuel G = Some (Returned C) →
  1 ≤ colours_used C ∧ product_round G (colours_used C) = Some (Returned C).
Proof.
  intros Hwf Hr.
  unfold product_brute_force_colouring, product_run in Hr. cbn zeta in Hr.
  rewrite product_while_first_round in Hr.
  apply first_round_Some in Hr as (k & Hk1 & Hk & Hbefore).
  destruct (product_round_returned G k C Hk)
    as (t & -> & Hlt & Htop & Hall & Hp).
  rewrite colours_used_paired by done.
  assert (0 < length t) as Hpos.
  { destruct t; [by apply elem_of_nil in Htop|simpl; lia]. }
  pose proof (size_colours_pos t Hpos) as Hd.
  pose proof (size_colours_bounded t k Hall) as Hdk.
  destruct (decide (size (list_to_set t : gset nat) = k)) as [->|Hne];
    [split; [lia|done]|].
  destruct (product_round_hit G t Hwf Hlt Hpos Hp) as [C' Hhit].
  rewrite Hbefore in Hhit by lia. done.
Qed.

Lemma custom_returned_round fuel G C :
  well_formed G → custom_brute_force_colouring fuel G = Some (Returned C) →
  1 ≤ colours_used C ∧ custom_round G (colours_used C) = Some (Returned C).
Proof.
  intros Hwf Hr.
  unfold custom_brute_force_colouring in Hr. cbn zeta in Hr.
  rewrite custom_while_first_round in Hr.
  apply first_round_Some in Hr as (k & Hk1 & Hk & _).
  destruct (custom_round_returned G k C) as (t & -> & Hlt & Hsize & _);
    [lia|done|].
  rewrite colours_used_paired, Hsize by done. split; [lia|done].
Qed.

(** What a search returns comes from the least proper colour sequence with
    colours below the number of colours used. *)
Lemma returned_least fuel G C :
  well_formed G →
  product_brute_force_colouring fuel G = Some (Returned C) ∨
  custom_brute_force_colouring fuel G = Some (Returned C) →
  ∃ s, C = paired (vertices G) s ∧ length s = length (vertices G) ∧
       ∀ t, length t = length (vertices G) →
            Forall (λ c, c < colours_used C) t →
            proper G (paired (vertices G) t) →
            s = t ∨ lex_lt s t.
Proof.
  intros Hwf Hret.
  assert (∀ t, length t = length (vertices G) →
               Forall (λ c, c < colours_used C) t →
               proper G (paired (vertices G) t) →
               size (list_to_set t : gset nat) = colours_used C) as Hfull.
  { intros t Hlen Hall Hp.
    pose proof (returned_colours_le fuel G C t Hwf Hret Hlen Hp).
    pose proof (size_colours_bounded t _ Hall). lia. }
  destruct Hret as [Hr|Hr].
  - destruct (product_returned_round fuel G C Hwf Hr) as [Hk1 Hround].
    destruct (product_round_least G _ C Hwf Hround) as (s & E & Hls & Hleast).
    exists s. split; [done|]. split; [done|]. intros t Hlen Hall Hp.
    apply Hleast; [done..| |done].
    apply (elem_of_list_to_set (C:=gset nat)).
    rewrite (colours_fill_range t (colours_used C)) by auto.
    apply elem_of_set_seq. lia.
  - destruct (custom_returned_round fuel G C Hwf Hr) as [Hk1 Hround].
    destruct (custom_round_least G _ C Hwf Hk1 Hround)
      as (s & E & Hls & Hleast).
    exists s. split; [done|]. split; [done|]. intros t Hlen Hall Hp.
    apply (lex_le_trans _ (canon t)); [|apply canon_lex].
    pose proof (Hfull t Hlen Hall Hp) as Hsize.
    apply Hleast.
    + by rewrite length_canon.
    + intros i c Hc. apply canon_bounds in Hc. by rewrite Hsize in Hc.
    + by rewrite size_colours_of_canon.
    + by apply proper_canon.
Qed.

(** What a search returns is not changed by relabelling. *)
Lemma returned_canonical fuel G C :
  well_formed G →
  product_brute_force_colouring fuel G = Some (Returned C) ∨
  custom_brute_force_colouring fuel G = Some (Returned C) →
  ∃ s, C = paired (vertices G) s ∧ length s = length (vertices G) ∧
       canon s = s.
Proof.
  intros Hwf Hret.
  destruct (returned_is_paired _ _ _ Hret) as (s0 & E0 & Hl0 & Hp).
  destruct (returned_least fuel G C Hwf Hret) as (s & -> & Hls & Hleast).
  exists s. split; [done|]. split; [done|].
  apply lex_le_antisym; [apply canon_lex|].
  apply Hleast; [by rewrite length_canon| |by apply proper_canon].
  rewrite colours_used_paired by done.
  apply Forall_forall. intros c [i Hc]%list_elem_of_lookup.
  by apply canon_bounds in Hc as [_ ?].
Qed.

End LeastColouring.

Section LeastColouringProperties.
Context {V : Type} `{Countable V}.
Implicit Types (G : Graph V) (C : gmap V nat) (s t : list nat).

(** X20. For positive options [colouring_generator] counts upwards: a
    larger index below the candidate count gives a sequence that is larger
    at the first position where the two differ. *)
Theorem colouring_generator_lexicographic options i j :
  Forall (λ b, 0 < b) options → i < j → j < number_colourings options →
  ∃ s t, colouring_generator i options = Ok s ∧
         colouring_generator j options = Ok t ∧ lex_lt s t.
Proof.
  intros Hpos Hij Hj.
  exists (mixed_radix_digits i options), (mixed_radix_digits j options).
  rewrite !colouring_generator_digits by done.
  split; [done|]. split; [done|]. by apply mixed_radix_digits_lex.
Qed.

Lemma returned_colours_below fuel G C s :
  well_formed G →
  product_brute_force_colouring fuel G = Some (Returned C) ∨
  custom_brute_force_colouring fuel G = Some (Returned C) →
  C = paired (vertices G) s → length s = length (vertices G) →
  Forall (λ c, c < colours_used C) s.
Proof.
  intros Hwf Hret HC Hlen.
  assert (∃ s0, C = paired (vertices G) s0 ∧
                length s0 = length (vertices G) ∧
                Forall (λ c, c < colours_used C) s0) as (s0 & E0 & Hl0 & Hall).
  { destruct Hret as [Hr|Hr].
    - destruct (product_returned_round fuel G C Hwf Hr) as [_ Hround].
      apply product_round_returned in Hround as (s0 & ? & ? & _ & ? & _).
      eauto.
    - destruct (custom_returned_round fuel G C Hwf Hr) as [Hk1 Hround].
      apply custom_round_returned_bounds in Hround
        as (s0 & ? & ? & _ & Hb); [|done].
      exists s0. split; [done|]. split; [done|].
      apply Forall_forall. intros c [i Hc]%list_elem_of_lookup.
      by apply Hb in Hc as [_ ?]. }
  pose proof (map_img_paired (vertices G) s (proj1 Hwf) Hlen) as Hs.
  pose proof (map_img_paired (vertices G) s0 (proj1 Hwf) Hl0) as Hs0.
  rewrite <-HC in Hs. rewrite <-E0, Hs in Hs0.
  rewrite Forall_forall in Hall. apply Forall_forall. intros c Hc.
  apply Hall. apply (elem_of_list_to_set (C:=gset nat)). rewrite <-Hs0.
  by apply elem_of_list_to_set.
Qed.

(** X21. On a graph with pairwise different vertices and edges between its
    vertices, the two searches return the very same dictionary. *)
Theorem searches_return_same_dictionary fuel1 fuel2 G C1 C2 :
  well_formed G →
  product_brute_force_colouring fuel1 G = Some (Returned C1) →
  custom_brute_force_colouring fuel2 G = Some (Returned C2) →
  C1 = C2.
Proof.
  intros Hwf H1 H2.
  destruct (returned_is_paired _ G C1 (or_introl H1)) as (t1 & E1 & Hl1 & Hp1).
  destruct (returned_is_paired _ G C2 (or_intror H2)) as (t2 & E2 & Hl2 & Hp2).
  assert (colours_used C1 = colours_used C2) as Hsame.
  { pose proof (returned_colours_le _ G C1 t2 Hwf (or_introl H1) Hl2) as Hle1.
    pose proof (returned_colours_le _ G C2 t1 Hwf (or_intror H2) Hl1) as Hle2.
    rewrite <-E1 in Hle2. rewrite <-E2 in Hle1.
    specialize (Hle1 Hp2). specialize (Hle2 Hp1).
    rewrite <-(colours_used_paired G t2), <-E2 in Hle1 by done.
    rewrite <-(colours_used_paired G t1), <-E1 in Hle2 by done. lia. }
  destruct (returned_least _ G C1 Hwf (or_introl H1)) as (s1 & F1 & Hs1 & Hm1).
  destruct (returned_least _ G C2 Hwf (or_intror H2)) as (s2 & F2 & Hs2 & Hm2).
  pose proof (returned_colours_below _ G C1 s1 Hwf (or_introl H1) F1 Hs1) as Hb1.
  pose proof (returned_colours_below _ G C2 s2 Hwf (or_intror H2) F2 Hs2) as Hb2.
  rewrite F1, F2. f_equal. apply lex_le_antisym.
  - apply Hm1; [done|by rewrite Hsame|by rewrite <-F2, E2, <-E2].
  - apply Hm2; [done|by rewrite <-Hsame|by rewrite <-F1, E1, <-E1].
Qed.

(** X22. What either search returns comes from the first, in the order of
    enumeration, of all proper colour sequences that use no more colours:
    any colour sequence for the vertices, with colours below the number
    used, that converts to a valid colouring is the returned one or comes
    after it. *)
Theorem returned_colouring_comes_first fuel G C t Ct :
  well_formed G →
  product_brute_force_colouring fuel G = Some (Returned C) ∨
  custom_brute_force_colouring fuel G = Some (Returned C) →
  length t = length (vertices G) → Forall (λ c, c < colours_used C) t →
  colouring_list_to_dict t (vertices G) = Ok Ct →
  validate_colouring G Ct = Ok true →
  ∃ s, colouring_list_to_dict s (vertices G) = Ok C ∧ (s = t ∨ lex_lt s t).
Proof.
  intros Hwf Hret Hlen Hall Hdict Hval.
  rewrite colouring_list_to_dict_paired in Hdict by lia.
  injection Hdict as <-. apply validate_colouring_proper in Hval.
  destruct (returned_least fuel G C Hwf Hret) as (s & -> & Hls & Hleast).
  exists s. split; [apply colouring_list_to_dict_paired; lia|].
  by apply Hleast.
Qed.

(** X23. In what either search returns, a vertex has colour [c + 1] only if
    a vertex earlier in the vertex order has colour [c]; colours are
    handed out in order of first use. *)
Theorem returned_colouring_first_use_order fuel G C i v c :
  well_formed G →
  product_brute_force_colouring fuel G = Some (Returned C) ∨
  custom_brute_force_colouring fuel G = Some (Returned C) →
  vertices G !! i = Some v → C !! v = Some (S c) →
  ∃ j u, j < i ∧ vertices G !! j = Some u ∧ C !! u = Some c.
Proof.
  intros Hwf Hret Hv HC.
  destruct (returned_canonical fuel G C Hwf Hret) as (s & -> & Hlen & Hfix).
  rewrite (lookup_paired_at _ _ i) in HC by (done || apply Hwf).
  destruct (canon_fixed_growth s i c Hfix HC) as (j & Hj & Hsj).
  destruct (lookup_lt_is_Some_2 (vertices G) j) as [u Hu].
  { apply lookup_lt_Some in Hv. lia. }
  exists j, u. split; [done|]. split; [done|].
  by rewrite (lookup_paired_at _ _ j) by (done || apply Hwf).
Qed.

End LeastColouringProperties.

Lemma colouring_generator_lexicographic_witness :
  ∃ s t, colouring_generator 2 [1; 2; 3] = Ok s ∧
         colouring_generator 5 [1; 2; 3] = Ok t ∧ lex_lt s t.
Proof.
  apply (colouring_generator_lexicographic [1; 2; 3] 2 5).
  - repeat constructor.
  - lia.
  - vm_compute. lia.
Defined.

Lemma searches_return_same_dictionary_witness :
  paired [0; 1; 2; 3] [0; 1; 0; 1] = paired [0; 1; 2; 3] [0; 1; 0; 1].
Proof.
  apply (searches_return_same_dictionary 2 2 cycle4).
  - split; compute_done.
  - vm_compute. reflexivity.
  - vm_compute. reflexivity.
Defined.

Lemma returned_colouring_comes_first_witness :
  ∃ s, colouring_list_to_dict s (vertices cycle4)
       = Ok (paired [0; 1; 2; 3] [0; 1; 0; 1]) ∧
       (s = [1; 0; 1; 0] ∨ lex_lt s [1; 0; 1; 0]).
Proof.
  apply (returned_colouring_comes_first 2 cycle4
           (paired [0; 1; 2; 3] [0; 1; 0; 1]) [1; 0; 1; 0]
           (paired [0; 1; 2; 3] [1; 0; 1; 0])).
  - split; compute_done.
  - left. vm_compute. reflexivity.
  - reflexivity.
  - compute_done.
  - vm_compute. reflexivity.
  - vm_compute. reflexivity.
Defined.

Lemma returned_colouring_first_use_order_witness :
  ∃ j u, j < 2 ∧ vertices triangle !! j = Some u ∧
         paired [0; 1; 2] [0; 1; 2] !! u = Some 1.
Proof.
  apply (returned_colouring_first_use_order 3 triangle
           (paired [0; 1; 2] [0; 1; 2]) 2 2 1).
  - split; compute_done.
  - right. vm_compute. reflexivity.
  - reflexivity.
  - vm_compute. reflexivity.
Defined.

Section RoundsNeeded.
Context {V : Type} `{Countable V}.
Implicit Types (G : Graph V) (C : gmap V nat).

Lemma first_round_exactly (round : nat → option (outcome V)) fuel fuel' C k :
  first_round round fuel 1 = Some (Returned C) →
  1 ≤ k → round k = Some (Returned C) →
  (∀ j C', 1 ≤ j < k → round j ≠ Some (Returned C')) →
  (∀ j, 1 ≤ j < k → round j = None ∨ ∃ C', round j = Some (Returned C')) →
  first_round round fuel' 1
  = if decide (k ≤ fuel') then Some (Returned C) else None.
Proof.
  intros Hret Hk Hround Hnot Hcases.
  assert (∀ j, 1 ≤ j < k → round j = None) as Hbefore.
  { intros j Hj. destruct (Hcases j Hj) as [?|[C' HC']]; [done|].
    by apply Hnot in HC'. }
  destruct (decide (k ≤ fuel')).
  - apply (first_round_intro _ _ _ k); [done..|lia].
  - apply first_round_None_within. intros j Hj. apply Hbefore. lia.
Qed.

(** X24. On a graph with pairwise different vertices and edges between its
    vertices, a search that returns a dictionary with [d] colours does so in
    round [d] exactly: it is still running after fewer rounds, and returns
    that dictionary whenever it is given at least [d] rounds. *)
Theorem searches_return_in_round_of_colours fuel fuel' G C :
  well_formed G →
  (product_brute_force_colouring fuel G = Some (Returned C) →
   product_brute_force_colouring fuel' G
   = if decide (colours_used C ≤ fuel') then Some (Returned C) else None) ∧
  (custom_brute_force_colouring fuel G = Some (Returned C) →
   custom_brute_force_colouring fuel' G
   = if decide (colours_used C ≤ fuel') then Some (Returned C) else None).
Proof.
  intros Hwf. split; intros Hr.
  - destruct (product_returned_round fuel G C Hwf Hr) as [Hk1 Hround].
    unfold product_brute_force_colouring, product_run in *. cbn zeta in *.
    rewrite product_while_first_round in *.
    apply (first_round_exactly _ fuel); [done..| |].
    + intros j C' Hj HC'.
      destruct (product_round_returned G j C' HC')
        as (t & -> & Hlt & _ & Hall & Hp).
      destruct (returned_is_paired fuel G C) as (s & -> & Hls & _).
      { left. unfold product_brute_force_colouring, product_run. cbn zeta.
        by rewrite product_while_first_round. }
      assert (colours_used (paired (vertices G) s)
              ≤ size (list_to_set t : gset nat)) as Hle.
      { apply (returned_colours_le fuel G); [done| |done..].
        left. unfold product_brute_force_colouring, product_run. cbn zeta.
        by rewrite product_while_first_round. }
      pose proof (size_colours_bounded t j Hall). lia.
    + intros j _. by apply product_round_well_formed.
  - destruct (custom_returned_round fuel G C Hwf Hr) as [Hk1 Hround].
    assert (colours_used C ≤ length (vertices G)) as Hkn.
    { unfold custom_round in Hround.
      destruct (decide (colours_used C ≤ length (vertices G))); done. }
    unfold custom_brute_force_colouring in *. cbn zeta in *.
    rewrite custom_while_first_round in *.
    apply (first_round_exactly _ fuel); [done..| |].
    + intros j C' Hj HC'.
      destruct (custom_round_returned_bounds G j C')
        as (t & -> & Hlt & Hsize & Hb); [lia|done|].
      assert (proper G (paired (vertices G) t)) as Hp.
      { by destruct (custom_round_returned G j _ (proj1 Hj) HC')
          as (_ & _ & _ & _ & ?). }
      assert (colours_used C ≤ size (list_to_set t : gset nat)) as Hle.
      { apply (returned_colours_le fuel G); [done| |done..].
        right. unfold custom_brute_force_colouring. cbn zeta.
        by rewrite custom_while_first_round. }
      lia.
    + intros j Hj. apply custom_round_well_formed; [done|lia..].
Qed.

End RoundsNeeded.

Lemma searches_return_in_round_of_colours_witness :
  product_brute_force_colouring 2 triangle
  = (if decide (colours_used (paired [0; 1; 2] [0; 1; 2]) ≤ 2)
     then Some (Returned (paired [0; 1; 2] [0; 1; 2])) else None) ∧
  custom_brute_force_colouring 2 triangle
  = (if decide (colours_used (paired [0; 1; 2] [0; 1; 2]) ≤ 2)
     then Some (Returned (paired [0; 1; 2] [0; 1; 2])) else None).
Proof.
  pose proof (searches_return_in_round_of_colours 5 2 triangle
                (paired [0; 1; 2] [0; 1; 2])) as [Hp Hc].
  - split; compute_done.
  - split; [apply Hp|apply Hc]; vm_compute; reflexivity.
Defined.
